(** * Meeting summarizer: the coordination layer of [main.py]

    A shallow embedding of the job store, the three agent definitions, the
    orchestration coroutine [_run_agents] and the HTTP handlers, together
    with the properties of the job lifecycle.

    The external collaborators are not implemented here: [Runner.run] is an
    awaited effect whose outcome is delivered by the environment, and
    [uuid.uuid4] is a value supplied by the environment at each submission. *)

From stdpp Require Import gmap strings list fin_maps.

Open Scope string_scope.
Open Scope list_scope.

(** ** Python values

    [final_output] of a run result is untyped in the SDK ([Any]); the values
    that matter here are [None], strings and (for the instructions of an
    agent) tuples. *)

#[warnings="-register-all"]
Inductive pyval : Type :=
| PyNone
| PyStr (s : string)
| PyTuple (items : list pyval).

(** Truth value testing, as used by the [or] operator. *)
Definition truthy (v : pyval) : bool :=
  match v with
  | PyNone => false
  | PyStr "" => false
  | PyStr _ => true
  | PyTuple [] => false
  | PyTuple _ => true
  end.

(** [a or b] *)
Definition py_or (a b : pyval) : pyval := if truthy a then a else b.

(** [isinstance(v, str)] *)
Definition is_str (v : pyval) : bool :=
  match v with PyStr _ => true | _ => false end.

(** ** Exceptions

    [KeyError] is what indexing the job store with a missing key raises.
    Everything [Runner.run] may raise is a [RunnerError]: the handler of
    [_run_agents] only looks at whether it is an instance of [Exception]
    (as opposed to a bare [BaseException] such as [CancelledError]) and at
    its [str]. *)

Inductive exc : Type :=
| KeyError (key : string)
| RunnerError (is_exception : bool) (text : string).

(** [isinstance(e, Exception)] *)
Definition isinstance_Exception (e : exc) : bool :=
  match e with
  | KeyError _ => true
  | RunnerError b _ => b
  end.

(** [str(e)].  For [KeyError] this is the [repr] of the key, written here
    for keys without quotes, backslashes or control characters (uuid
    strings are such keys). *)
Definition str (e : exc) : string :=
  match e with
  | KeyError key => "'" +:+ key +:+ "'"
  | RunnerError _ text => text
  end.

(** ** 2. The tool given to the summarizer *)

(** What [print] wrote for one call of the stub: the three interpolated
    values of the [[EMAIL]] line. *)
Record email_print : Type := EmailPrint {
  printed_recipients : list string;
  printed_subject : string;
  printed_body : string
}.

(** A [FunctionTool], as produced by the [@function_tool] decorator. *)
Record FunctionTool : Type := {
  tool_name : string;
  tool_doc : string;
  on_invoke : list string → string → string → list email_print * string
}.

Definition send_email : FunctionTool := {|
  tool_name := "send_email";
  tool_doc := "Send the summary via email (stub).";
  on_invoke := λ recipients subject body,
    ([EmailPrint recipients subject body], "email_sent")
|}.

(** ** 3. The three agents *)

Record Agent : Type := {
  name : string;
  instructions : pyval;
  model : string;
  tools : list FunctionTool
}.

Definition transcriber : Agent := {|
  name := "Transcriber";
  instructions :=
    PyStr "You turn raw meeting audio transcripts into clean, speaker-labelled text.";
  model := "gemini-1.5-flash";
  tools := []
|}.

(** The parenthesised expression of the source ends with a comma: it is a
    one-element tuple holding the concatenated literal. *)
Definition clarifier : Agent := {|
  name := "Clarifier";
  instructions :=
    PyTuple [PyStr ("Read the transcript and ask the summarizer to resolve any ambiguous "
                    +:+ "points before final summary is produced.")];
  model := "gemini-1.5-flash";
  tools := []
|}.

Definition summarizer : Agent := {|
  name := "Summarizer";
  instructions :=
    PyStr ("Produce a concise 1-page summary plus a Mermaid timeline. "
           +:+ "Then call send_email to deliver it.");
  model := "gemini-1.5-flash";
  tools := [send_email]
|}.

(** ** The agent runner, seen from this module *)

Record RunResult : Type := { final_output : pyval }.

(** The [context=] dictionary of the third call. *)
Record Context : Type := {
  recipients : list string;
  subject : string
}.

(** One call [Runner.run(agent, input, context=...)]. *)
Record call : Type := {
  call_agent : Agent;
  call_input : pyval;
  call_context : option Context
}.

(** What awaiting a call gives back. *)
Inductive outcome : Type :=
| Returned (r : RunResult)
| Raised (e : exc).

(** ** 1. The job store *)

Abbreviation record := (gmap string string) (only parsing).
Abbreviation store := (gmap string (gmap string string)) (only parsing).

(** ** Coroutines

    A coroutine is a tree of effects: reading and writing the global
    [jobs], and awaiting the runner.  Everything between two awaits runs
    without interruption on the cooperative scheduler. *)

Inductive coro (A : Type) : Type :=
| Return (a : A)
| Raise (e : exc)
| ReadJobs (k : store → coro A)
| WriteJobs (d : store) (k : coro A)
| Await (c : call) (k : outcome → coro A).

Arguments Return {A} a.
Arguments Raise {A} e.
Arguments ReadJobs {A} k.
Arguments WriteJobs {A} d k.
Arguments Await {A} c k.

Fixpoint coro_bind {A B} (f : A → coro B) (p : coro A) : coro B :=
  match p with
  | Return a => f a
  | Raise e => Raise e
  | ReadJobs k => ReadJobs (λ d, coro_bind f (k d))
  | WriteJobs d k => WriteJobs d (coro_bind f k)
  | Await c k => Await c (λ o, coro_bind f (k o))
  end.

#[export] Instance coro_mret : MRet coro := λ A, @Return A.
#[export] Instance coro_mbind : MBind coro := λ A B, @coro_bind A B.

(** [try: body  except Exception as e: handler e].  An exception that is
    not an instance of [Exception] passes through, and so does whatever the
    handler itself raises. *)
Fixpoint try_except {A} (body : coro A) (handler : exc → coro A) : coro A :=
  match body with
  | Return a => Return a
  | Raise e => if isinstance_Exception e then handler e else Raise e
  | ReadJobs k => ReadJobs (λ d, try_except (k d) handler)
  | WriteJobs d k => WriteJobs d (try_except k handler)
  | Await c k => Await c (λ o, try_except (k o) handler)
  end.

(** [await Runner.run(agent, input, context=context)] *)
Definition Runner_run (agent : Agent) (input : pyval) (context : option Context)
  : coro RunResult :=
  Await {| call_agent := agent; call_input := input; call_context := context |}
        (λ o, match o with
              | Returned r => Return r
              | Raised e => Raise e
              end).

(** [jobs[job_id][key] = value]: the record is looked up first (a missing
    identifier raises [KeyError]) and then updated in place, so the store
    sees the new field. *)
Definition jobs_setitem (job_id key value : string) : coro unit :=
  ReadJobs (λ jobs,
    match jobs !! job_id with
    | None => Raise (KeyError job_id)
    | Some rec => WriteJobs (<[job_id := <[key := value]> rec]> jobs) (Return tt)
    end).

(** ** 5. Background runner *)

Definition _run_agents (job_id transcript : string) : coro unit :=
  try_except
    (result1 ← Runner_run transcriber (PyStr transcript) None;
     let clean_text := final_output result1 in
     result2 ← Runner_run clarifier clean_text None;
     let clarified := py_or (final_output result2) clean_text in
     _ ← Runner_run summarizer clarified
           (Some {| recipients := ["team@example.com"];
                    subject := "Summary #" +:+ job_id |});
     jobs_setitem job_id "status" "completed")
    (λ e,
     jobs_setitem job_id "status" "failed";;
     jobs_setitem job_id "error" (str e)).

(** ** The event loop

    A task created by [asyncio.create_task] is first scheduled, then runs
    from one await to the next each time the loop resumes it, and finally
    finishes, either by returning or with an exception that nothing
    caught. *)

Inductive task_state : Type :=
| Scheduled (body : coro unit)
| Suspended (c : call) (k : outcome → coro unit)
| Finished (propagated : option exc).

(** Run a coroutine up to its next await, or to its end. *)
Fixpoint advance (p : coro unit) (jobs : store) : store * task_state :=
  match p with
  | Return _ => (jobs, Finished None)
  | Raise e => (jobs, Finished (Some e))
  | ReadJobs k => advance (k jobs) jobs
  | WriteJobs d k => advance k d
  | Await c k => (jobs, Suspended c k)
  end.

(** A task, with the arguments its coroutine was created with and a record
    of what it has done so far: the runner calls it has issued and the
    outcomes it has been resumed with. *)
Record task : Type := {
  task_job_id : string;
  task_transcript : string;
  task_st : task_state;
  task_calls : list call;
  task_history : list outcome
}.

Definition settle (t : task) (st : task_state) (h : list outcome) : task := {|
  task_job_id := task_job_id t;
  task_transcript := task_transcript t;
  task_st := st;
  task_calls :=
    match st with
    | Suspended c _ => task_calls t ++ [c]
    | _ => task_calls t
    end;
  task_history := h
|}.

(** The loop runs a scheduled task for the first time ([o = None]) or
    resumes a suspended one with the outcome of its pending call.  Any
    other combination does not occur and leaves everything as it is. *)
Definition resume (t : task) (o : option outcome) (jobs : store) : store * task :=
  match task_st t, o with
  | Scheduled body, None =>
      let '(jobs', st) := advance body jobs in
      (jobs', settle t st (task_history t))
  | Suspended _ k, Some o =>
      let '(jobs', st) := advance (k o) jobs in
      (jobs', settle t st (task_history t ++ [o]))
  | _, _ => (jobs, t)
  end.

(** The process: the global [jobs] and the tasks of the loop, in creation
    order. *)
Record sys : Type := {
  jobs : store;
  tasks : list task
}.

Definition init : sys := {| jobs := ∅; tasks := [] |}.

Definition create_task (job_id transcript : string) : task := {|
  task_job_id := job_id;
  task_transcript := transcript;
  task_st := Scheduled (_run_agents job_id transcript);
  task_calls := [];
  task_history := []
|}.

Definition resume_task (i : nat) (o : option outcome) (s : sys) : sys :=
  match tasks s !! i with
  | None => s
  | Some t =>
      let '(jobs', t') := resume t o (jobs s) in
      {| jobs := jobs'; tasks := <[i := t']> (tasks s) |}
  end.

(** ** 4. Endpoints *)

Record SummarizeRequest : Type := { transcript : string }.

Inductive HTTPException : Type :=
| mkHTTPException (status_code : nat) (detail : string).

Record Response : Type := {
  resp_status : nat;
  resp_body : gmap string string
}.

(** What the framework sends for the value a handler returns or for the
    [HTTPException] it raises. *)
Definition respond (r : HTTPException + gmap string string) : Response :=
  match r with
  | inr body => {| resp_status := 200; resp_body := body |}
  | inl (mkHTTPException code detail) =>
      {| resp_status := code; resp_body := {["detail" := detail]} |}
  end.

Definition health : gmap string string := {["status" := "ok"]}.

(** [uuid4] stands for the value of [str(uuid.uuid4())]. *)
Definition summarize_job (uuid4 : string) (req : SummarizeRequest) (s : sys)
  : sys * gmap string string :=
  let job_id := uuid4 in
  let jobs1 := <[job_id := {["status" := "started"]}]> (jobs s) in
  let tasks1 := tasks s ++ [create_task job_id (transcript req)] in
  ({| jobs := jobs1; tasks := tasks1 |},
   {["job_id" := job_id; "status" := "queued"]}).

Definition get_job (job_id : string) (jobs : store)
  : HTTPException + gmap string string :=
  match jobs !! job_id with
  | None => inl (mkHTTPException 404 "job not found")
  | Some rec => inr rec
  end.

(** ** Runs of the process *)

Inductive event : Type :=
| POST_summarize (uuid4 : string) (req : SummarizeRequest)
| GET_jobs (job_id : string)
| GET_health
| TaskStart (i : nat)
| RunnerDone (i : nat) (o : outcome).

Definition step (s : sys) (ev : event) : sys :=
  match ev with
  | POST_summarize uuid4 req => (summarize_job uuid4 req s).1
  | GET_jobs _ => s
  | GET_health => s
  | TaskStart i => resume_task i None s
  | RunnerDone i o => resume_task i (Some o) s
  end.

Definition response (s : sys) (ev : event) : option Response :=
  match ev with
  | POST_summarize uuid4 req => Some (respond (inr (summarize_job uuid4 req s).2))
  | GET_jobs job_id => Some (respond (get_job job_id (jobs s)))
  | GET_health => Some (respond (inr health))
  | TaskStart _ => None
  | RunnerDone _ _ => None
  end.

Definition run (s : sys) (evs : list event) : sys := foldl step s evs.

(** [uuid.uuid4] is taken to be collision-free: every generated identifier
    is new to the store at the time of its submission. *)
Definition fresh_uuid (s : sys) (ev : event) : Prop :=
  match ev with
  | POST_summarize uuid4 _ => jobs s !! uuid4 = None
  | _ => True
  end.

Fixpoint fresh_uuids (s : sys) (evs : list event) : Prop :=
  match evs with
  | [] => True
  | ev :: evs' => fresh_uuid s ev ∧ fresh_uuids (step s ev) evs'
  end.

(** * The vocabulary of the properties *)

(** ** The stages of [_run_agents] *)

Definition call1 (tr : string) : call :=
  {| call_agent := transcriber; call_input := PyStr tr; call_context := None |}.

Definition call2 (r1 : RunResult) : call :=
  {| call_agent := clarifier; call_input := final_output r1; call_context := None |}.

Definition call3 (j : string) (r1 r2 : RunResult) : call :=
  {| call_agent := summarizer;
     call_input := py_or (final_output r2) (final_output r1);
     call_context := Some {| recipients := ["team@example.com"];
                             subject := "Summary #" +:+ j |} |}.

(** The calls issued once the results [rs] have come back. *)
Definition stage_calls (j tr : string) (rs : list RunResult) : list call :=
  call1 tr ::
  match rs with
  | [] => []
  | r1 :: rs' =>
      call2 r1 :: match rs' with
                  | [] => []
                  | r2 :: _ => [call3 j r1 r2]
                  end
  end.

(** The two ways the coroutine ends after its last await. *)
Definition mark_completed (j : string) (d : store) : store * task_state :=
  match d !! j with
  | Some rec => (<[j := <["status" := "completed"]> rec]> d, Finished None)
  | None => (d, Finished (Some (KeyError j)))
  end.

Definition mark_failed (j : string) (e : exc) (d : store) : store * task_state :=
  if isinstance_Exception e then
    match d !! j with
    | Some rec =>
        (<[j := <["error" := str e]> (<["status" := "failed"]> rec)]> d, Finished None)
    | None => (d, Finished (Some (KeyError j)))
    end
  else (d, Finished (Some e)).

(** A continuation waiting for the third, second, first call. *)
Definition stage3_k (j : string) (k : outcome → coro unit) : Prop :=
  ∀ o d, advance (k o) d =
         match o with
         | Returned _ => mark_completed j d
         | Raised e => mark_failed j e d
         end.

Definition stage2_k (j : string) (r1 : RunResult) (k : outcome → coro unit) : Prop :=
  ∀ o d, match o with
         | Returned r2 =>
             ∃ k', advance (k o) d = (d, Suspended (call3 j r1 r2) k') ∧ stage3_k j k'
         | Raised e => advance (k o) d = mark_failed j e d
         end.

Definition stage1_k (j : string) (k : outcome → coro unit) : Prop :=
  ∀ o d, match o with
         | Returned r1 =>
             ∃ k', advance (k o) d = (d, Suspended (call2 r1) k') ∧ stage2_k j r1 k'
         | Raised e => advance (k o) d = mark_failed j e d
         end.

(** ** Where a task is in its life *)

Inductive phase : Type :=
| Created
| Waiting (rs : list RunResult)
| Completed (r1 r2 r3 : RunResult)
| Failed (rs : list RunResult) (e : exc)
| Aborted (rs : list RunResult) (e : exc).

Definition waiting_on (j tr : string) (rs : list RunResult)
    (c : call) (k : outcome → coro unit) : Prop :=
  match rs with
  | [] => c = call1 tr ∧ stage1_k j k
  | [r1] => c = call2 r1 ∧ stage2_k j r1 k
  | [r1; r2] => c = call3 j r1 r2 ∧ stage3_k j k
  | _ => False
  end.

Definition shape (t : task) (ph : phase) : Prop :=
  let j := task_job_id t in
  let tr := task_transcript t in
  match ph with
  | Created =>
      task_st t = Scheduled (_run_agents j tr) ∧
      task_calls t = [] ∧ task_history t = []
  | Waiting rs =>
      (∃ c k, task_st t = Suspended c k ∧ waiting_on j tr rs c k) ∧
      task_calls t = stage_calls j tr rs ∧ task_history t = Returned <$> rs
  | Completed r1 r2 r3 =>
      task_st t = Finished None ∧
      task_calls t = stage_calls j tr [r1; r2] ∧
      task_history t = [Returned r1; Returned r2; Returned r3]
  | Failed rs e =>
      isinstance_Exception e = true ∧ (List.length rs ≤ 2)%nat ∧
      task_st t = Finished None ∧
      task_calls t = stage_calls j tr rs ∧
      task_history t = (Returned <$> rs) ++ [Raised e]
  | Aborted rs e =>
      isinstance_Exception e = false ∧ (List.length rs ≤ 2)%nat ∧
      task_st t = Finished (Some e) ∧
      task_calls t = stage_calls j tr rs ∧
      task_history t = (Returned <$> rs) ++ [Raised e]
  end.

(** The record a job has in each phase of its task. *)
Definition expected_record (ph : phase) : gmap string string :=
  match ph with
  | Completed _ _ _ => {["status" := "completed"]}
  | Failed _ e => {["status" := "failed"; "error" := str e]}
  | _ => {["status" := "started"]}
  end.

(** One resumption moves a task along by at most one phase, and touches
    at most the record of its own job. *)
Inductive evolves : phase → gmap string string → phase → gmap string string → Prop :=
| ev_stay ph rec : evolves ph rec ph rec
| ev_start rec : evolves Created rec (Waiting []) rec
| ev_next rs r rec : evolves (Waiting rs) rec (Waiting (rs ++ [r])) rec
| ev_done r1 r2 r3 rec :
    evolves (Waiting [r1; r2]) rec (Completed r1 r2 r3) (<["status" := "completed"]> rec)
| ev_fail rs e rec :
    evolves (Waiting rs) rec (Failed rs e)
            (<["error" := str e]> (<["status" := "failed"]> rec))
| ev_abort rs e rec : evolves (Waiting rs) rec (Aborted rs e) rec.

(** ** Invariants of the process *)

(** Every task is somewhere in the life of [_run_agents], and its job is
    in the store.  This needs nothing of the identifiers. *)
Definition sys_wf (s : sys) : Prop :=
  ∀ i t, tasks s !! i = Some t →
         (∃ ph, shape t ph) ∧ is_Some (jobs s !! task_job_id t).

(** With identifiers that do not collide, each job has one task, and the
    record of the job is the one that goes with the phase of its task. *)
Record sys_ok (s : sys) : Prop := {
  ok_tasks : ∀ i t, tasks s !! i = Some t →
    ∃ ph, shape t ph ∧ jobs s !! task_job_id t = Some (expected_record ph);
  ok_nodup : NoDup (task_job_id <$> tasks s);
  ok_dom : ∀ j, is_Some (jobs s !! j) → j ∈ task_job_id <$> tasks s
}.

(** A record whose status is final. *)
Definition terminal (rec : gmap string string) : Prop :=
  rec !! "status" = Some "completed" ∨ rec !! "status" = Some "failed".

(** ** Concrete runs, for the examples *)

(** Helpers to name the tasks of a concrete run. *)
Definition nth_task (s : sys) (i : nat) : task :=
  default (create_task "" "") (tasks s !! i).

Definition pending_call (t : task) : call :=
  match task_st t with
  | Suspended c _ => c
  | _ => call1 ""
  end.

Definition pending_k (t : task) : outcome → coro unit :=
  match task_st t with
  | Suspended _ k => k
  | _ => λ _, Return tt
  end.

(** A submission used in the examples. *)
Definition req1 : SummarizeRequest :=
  {| transcript := "Alice: Hi. Bob: Let us ship Friday." |}.

Definition res (s : string) : RunResult := {| final_output := PyStr s |}.

(** One job, whose first call has succeeded. *)
Definition trace1 : list event :=
  [POST_summarize "job-1" req1; TaskStart 0;
   RunnerDone 0 (Returned (res "Alice: Hi."))].

(** One job, whose first two calls have succeeded. *)
Definition trace2 : list event :=
  trace1 ++ [RunnerDone 0 (Returned (res "Alice greets; Bob proposes Friday."))].

(** One job, whose first call raises an error with an empty description. *)
Definition trace_empty_error : list event :=
  [POST_summarize "job-1" req1; TaskStart 0;
   RunnerDone 0 (Raised (RunnerError true ""))].

(** One job, whose clarifier has returned an empty output. *)
Definition trace_fallback : list event :=
  trace1 ++ [RunnerDone 0 (Returned (res ""))].

(** One job, whose transcriber and clarifier have both returned an empty
    output. *)
Definition trace_empty_clean : list event :=
  [POST_summarize "job-1" req1; TaskStart 0;
   RunnerDone 0 (Returned (res "")); RunnerDone 0 (Returned (res ""))].

(** Two submissions that were given the same identifier. *)
Definition trace_collision : list event :=
  [POST_summarize "job-1" req1; TaskStart 0;
   RunnerDone 0 (Raised (RunnerError true "boom"));
   POST_summarize "job-1" req1; TaskStart 1].

(** ** Vocabulary of the further properties *)

(** The record that goes with the outcomes a task has been resumed with:
    failed once an [Exception] has come, completed once three results
    have, started otherwise. *)
Definition record_of_history (h : list outcome) : gmap string string :=
  match last h with
  | Some (Raised e) =>
      if isinstance_Exception e
      then {["status" := "failed"; "error" := str e]}
      else {["status" := "started"]}
  | Some (Returned _) =>
      if decide (List.length h = 3%nat)
      then {["status" := "completed"]}
      else {["status" := "started"]}
  | None => {["status" := "started"]}
  end.


Definition is_submission (ev : event) : bool :=
  match ev with
  | POST_summarize _ _ => true
  | _ => false
  end.

(** The number of submissions in a run. *)
Definition submissions (evs : list event) : nat :=
  List.length (List.filter is_submission evs).

(** A coroutine awaited on its own, as by a direct caller, against a
    runner whose successive outcomes are given: it goes from await to
    await until it ends or the outcomes run out. *)
Fixpoint drive (st : task_state) (script : list outcome) (d : store)
  : store * task_state :=
  match st, script with
  | Suspended _ k, o :: script' =>
      let '(d', st') := advance (k o) d in drive st' script' d'
  | _, _ => (d, st)
  end.

Definition run_alone (p : coro unit) (script : list outcome) (d : store)
  : store * task_state :=
  let '(d', st) := advance p d in drive st script d'.

(** Two jobs, the first completed and the second failed at its second
    call, their events interleaved with status queries. *)
Definition trace_two_jobs : list event :=
  [POST_summarize "job-1" req1;
   POST_summarize "job-2" {| transcript := "Carol: Budget?" |};
   TaskStart 1; TaskStart 0; GET_jobs "job-1";
   RunnerDone 0 (Returned (res "Alice: Hi."));
   RunnerDone 1 (Returned (res "Carol: Budget?"));
   GET_health;
   RunnerDone 1 (Raised (RunnerError true "quota exceeded"));
   RunnerDone 0 (Returned (res "Nothing unclear."));
   GET_jobs "job-2";
   RunnerDone 0 (Returned (res "Summary sent."))].

(** Two submissions given the same identifier: the first task has failed,
    the second is awaiting its third call. *)
Definition trace_stale_error : list event :=
  [POST_summarize "job-1" req1; POST_summarize "job-1" req1;
   TaskStart 0; TaskStart 1;
   RunnerDone 0 (Raised (RunnerError true "boom"));
   RunnerDone 1 (Returned (res "Alice: Hi."));
   RunnerDone 1 (Returned (res "Nothing unclear."))].

(** * Lemmas *)

(** ** The stages of [_run_agents] *)

Lemma advance_except j e d :
  advance (try_except (Raise e)
     (λ e, jobs_setitem j "status" "failed";; jobs_setitem j "error" (str e))) d
  = mark_failed j e d.
Proof.
  unfold mark_failed. cbn. destruct (isinstance_Exception e); [|done].
  cbn. destruct (d !! j) as [rec|] eqn:E; cbn; [|done].
  rewrite lookup_insert_eq. cbn. by rewrite insert_insert_eq.
Qed.

Lemma advance_completed j d :
  advance (try_except (jobs_setitem j "status" "completed")
     (λ e, jobs_setitem j "status" "failed";; jobs_setitem j "error" (str e))) d
  = mark_completed j d.
Proof.
  unfold mark_completed. cbn. destruct (d !! j) as [rec|] eqn:E; cbn; [done|].
  by rewrite E.
Qed.

#[local] Arguments _run_agents : simpl never.

(** [_run_agents] issues the first call at once and then goes through the
    three stages. *)
Lemma run_agents_start j tr d :
  ∃ k, advance (_run_agents j tr) d = (d, Suspended (call1 tr) k) ∧ stage1_k j k.
Proof.
  eexists. split; [reflexivity|].
  intros [r1|e] d1; [|apply advance_except].
  eexists. split; [reflexivity|].
  intros [r2|e] d2; [|apply advance_except].
  eexists. split; [reflexivity|].
  intros [r3|e] d3; [apply advance_completed|apply advance_except].
Qed.

(** ** One resumption of a task *)

Lemma waiting_on_length j tr rs c k : waiting_on j tr rs c k → (List.length rs ≤ 2)%nat.
Proof. destruct rs as [|?[|?[|? ?]]]; cbn; [lia..|done]. Qed.

Lemma resume_scheduled t body d :
  task_st t = Scheduled body →
  resume t None d = ((advance body d).1, settle t (advance body d).2 (task_history t)).
Proof. intros E. unfold resume. rewrite E. by destruct (advance body d). Qed.

Lemma resume_suspended t c k o d :
  task_st t = Suspended c k →
  resume t (Some o) d
  = ((advance (k o) d).1, settle t (advance (k o) d).2 (task_history t ++ [o])).
Proof. intros E. unfold resume. rewrite E. by destruct (advance (k o) d). Qed.

Lemma resume_finished t r o d : task_st t = Finished r → resume t o d = (d, t).
Proof. intros E. unfold resume. rewrite E. by destruct o. Qed.

Lemma resume_scheduled_some t body o d :
  task_st t = Scheduled body → resume t (Some o) d = (d, t).
Proof. intros E. unfold resume. by rewrite E. Qed.

Lemma resume_suspended_none t c k d :
  task_st t = Suspended c k → resume t None d = (d, t).
Proof. intros E. unfold resume. by rewrite E. Qed.

Lemma waiting_on_raised j tr rs c k e d :
  waiting_on j tr rs c k → advance (k (Raised e)) d = mark_failed j e d.
Proof.
  destruct rs as [|r1 [|r2 [|r3 rs]]]; cbn; [| | |done]; intros [_ Hk];
    apply (Hk (Raised e) d).
Qed.

Lemma waiting_on_returned j tr rs c k r d :
  waiting_on j tr rs c k →
  (∃ c' k', advance (k (Returned r)) d = (d, Suspended c' k') ∧
            waiting_on j tr (rs ++ [r]) c' k' ∧
            stage_calls j tr (rs ++ [r]) = stage_calls j tr rs ++ [c']) ∨
  (∃ r1 r2, rs = [r1; r2] ∧ advance (k (Returned r)) d = mark_completed j d).
Proof.
  destruct rs as [|r1 [|r2 [|r3 rs]]]; cbn; [| | |done]; intros [_ Hk].
  - left. destruct (Hk (Returned r) d) as (k' & ? & ?). eauto 10.
  - left. destruct (Hk (Returned r) d) as (k' & ? & ?). eauto 10.
  - right. exists r1, r2. split; [done|]. apply (Hk (Returned r) d).
Qed.

(** What one resumption does to a task in a known phase. *)
Lemma resume_evolves t ph o d rec :
  shape t ph →
  d !! task_job_id t = Some rec →
  ∃ ph' rec',
    (resume t o d).1 = <[task_job_id t := rec']> d ∧
    shape (resume t o d).2 ph' ∧
    task_job_id (resume t o d).2 = task_job_id t ∧
    evolves ph rec ph' rec'.
Proof.
  intros Hsh Hrec.
  assert (Hid : <[task_job_id t := rec]> d = d) by by apply insert_id.
  assert (Hstay : ∀ ph, shape t ph → resume t o d = (d, t) →
    ∃ ph' rec',
    (resume t o d).1 = <[task_job_id t := rec']> d ∧
    shape (resume t o d).2 ph' ∧
    task_job_id (resume t o d).2 = task_job_id t ∧
    evolves ph rec ph' rec').
  { intros ph0 H0 ->. exists ph0, rec. rewrite Hid. eauto using evolves. }
  destruct ph as [|rs|r1 r2 r3|rs e|rs e]; cbn in Hsh.
  - destruct Hsh as (Hst & Hc & Hh).
    destruct o as [o|].
    { apply Hstay; [done|]. by eapply resume_scheduled_some. }
    rewrite (resume_scheduled _ _ _ Hst).
    destruct (run_agents_start (task_job_id t) (task_transcript t) d)
      as (k & -> & Hk).
    exists (Waiting []), rec. cbn. rewrite Hid, Hc, Hh.
    repeat split; eauto using evolves.
  - destruct Hsh as ((c & k & Hst & Hw) & Hc & Hh).
    destruct o as [o|]; last first.
    { apply Hstay; [cbn; eauto 10|]. by eapply resume_suspended_none. }
    rewrite (resume_suspended _ _ _ _ _ Hst).
    destruct o as [r|e].
    + destruct (waiting_on_returned _ _ _ _ _ r d Hw)
        as [(c' & k' & -> & Hw' & Hcs)|(r1 & r2 & -> & ->)].
      * exists (Waiting (rs ++ [r])), rec. cbn. rewrite Hid, Hc, Hh, Hcs, fmap_app.
        repeat split; eauto using evolves.
      * unfold mark_completed. rewrite Hrec.
        exists (Completed r1 r2 r), (<["status" := "completed"]> rec). cbn.
        rewrite Hc, Hh. repeat split; eauto using evolves.
    + rewrite (waiting_on_raised _ _ _ _ _ e d Hw). unfold mark_failed.
      pose proof (waiting_on_length _ _ _ _ _ Hw) as Hlen.
      destruct (isinstance_Exception e) eqn:He.
      * rewrite Hrec.
        exists (Failed rs e), (<["error" := str e]> (<["status" := "failed"]> rec)).
        cbn. rewrite Hc, Hh. repeat split; eauto using evolves.
      * exists (Aborted rs e), rec. cbn. rewrite Hid, Hc, Hh.
        repeat split; eauto using evolves.
  - apply Hstay; [done|]. eapply resume_finished, Hsh.
  - apply Hstay; [done|]. eapply resume_finished, Hsh.
  - apply Hstay; [done|]. eapply resume_finished, Hsh.
Qed.

Lemma resume_task_None i o s : tasks s !! i = None → resume_task i o s = s.
Proof. intros E. unfold resume_task. by rewrite E. Qed.

Lemma resume_task_evolves i o s t ph rec :
  tasks s !! i = Some t →
  shape t ph →
  jobs s !! task_job_id t = Some rec →
  ∃ t' ph' rec',
    resume_task i o s
    = {| jobs := <[task_job_id t := rec']> (jobs s); tasks := <[i := t']> (tasks s) |} ∧
    shape t' ph' ∧
    task_job_id t' = task_job_id t ∧
    evolves ph rec ph' rec'.
Proof.
  intros Hi Hsh Hrec.
  destruct (resume_evolves t ph o (jobs s) rec Hsh Hrec)
    as (ph' & rec' & Hd & Hsh' & Hj & Hev).
  exists (resume t o (jobs s)).2, ph', rec'. repeat split; try done.
  unfold resume_task. rewrite Hi.
  destruct (resume t o (jobs s)) as [d' t']. cbn in *. by rewrite Hd.
Qed.

(** ** The invariants hold in every state *)

Lemma init_wf : sys_wf init.
Proof. intros i t. cbn. by rewrite lookup_nil. Qed.

Lemma resume_task_wf i o s : sys_wf s → sys_wf (resume_task i o s).
Proof.
  intros Hwf. destruct (tasks s !! i) as [t|] eqn:Hi;
    [|by rewrite resume_task_None].
  destruct (Hwf i t Hi) as [[ph Hsh] [rec Hrec]].
  destruct (resume_task_evolves i o s t ph rec Hi Hsh Hrec)
    as (t' & ph' & rec' & -> & Hsh' & Hj & _).
  intros i0 t0. cbn. rewrite list_lookup_insert_Some.
  intros [(<- & <- & _)|[_ Hi0]].
  - split; [by exists ph'|]. rewrite Hj, lookup_insert_eq. eauto.
  - destruct (Hwf i0 t0 Hi0) as [Hph Hj0]. split; [done|].
    rewrite lookup_insert_is_Some. destruct (decide (task_job_id t = task_job_id t0)); auto.
Qed.

Lemma step_wf s ev : sys_wf s → sys_wf (step s ev).
Proof.
  intros Hwf. destruct ev as [u req| | |i|i o]; cbn;
    [|done|done|by apply resume_task_wf..].
  intros i t. unfold summarize_job. cbn.
  rewrite lookup_app_Some. intros [Hi|[_ Hi]].
  - destruct (Hwf i t Hi) as [Hph Hj]. split; [done|].
    rewrite lookup_insert_is_Some. destruct (decide (u = task_job_id t)); auto.
  - apply list_lookup_singleton_Some in Hi as [_ <-]. split.
    + by exists Created.
    + cbn. rewrite lookup_insert_eq. eauto.
Qed.

Lemma run_wf s evs : sys_wf s → sys_wf (run s evs).
Proof.
  revert s. induction evs as [|ev evs IH]; intros s Hwf; [done|].
  apply IH, step_wf, Hwf.
Qed.

Lemma run_app s evs1 evs2 : run s (evs1 ++ evs2) = run (run s evs1) evs2.
Proof. apply foldl_app. Qed.

Lemma fresh_uuids_app s evs1 evs2 :
  fresh_uuids s (evs1 ++ evs2) ↔ fresh_uuids s evs1 ∧ fresh_uuids (run s evs1) evs2.
Proof.
  revert s. induction evs1 as [|ev evs1 IH]; intros s; cbn; [tauto|].
  rewrite IH. tauto.
Qed.

Lemma run_snoc_app s evs ev evs' :
  run s (evs ++ ev :: evs') = run (step (run s evs) ev) evs'.
Proof. by rewrite run_app. Qed.

Lemma fresh_uuids_snoc_app s evs ev evs' :
  fresh_uuids s (evs ++ ev :: evs') →
  fresh_uuids s evs ∧ fresh_uuid (run s evs) ev ∧
  fresh_uuids (step (run s evs) ev) evs'.
Proof. rewrite fresh_uuids_app. cbn. tauto. Qed.

Lemma init_ok : sys_ok init.
Proof.
  split; cbn.
  - intros i t. by rewrite lookup_nil.
  - constructor.
  - intros j [? H]. by rewrite lookup_empty in H.
Qed.

Lemma evolves_expected ph ph' rec' :
  evolves ph (expected_record ph) ph' rec' →
  rec' = expected_record ph'.
Proof.
  inversion 1; subst; done.
Qed.

Lemma resume_task_ok i o s : sys_ok s → sys_ok (resume_task i o s).
Proof.
  intros [Ht Hnd Hdom]. destruct (tasks s !! i) as [t|] eqn:Hi;
    [|by rewrite resume_task_None].
  destruct (Ht i t Hi) as (ph & Hsh & Hrec).
  destruct (resume_task_evolves i o s t ph _ Hi Hsh Hrec)
    as (t' & ph' & rec' & -> & Hsh' & Hj & Hev).
  apply evolves_expected in Hev as ->.
  assert (Hids : task_job_id <$> <[i := t']> (tasks s) = task_job_id <$> tasks s).
  { rewrite list_fmap_insert, Hj. apply list_insert_id.
    by rewrite list_lookup_fmap, Hi. }
  split; cbn.
  - intros i0 t0. rewrite list_lookup_insert_Some.
    intros [(<- & <- & _)|[Hne Hi0]].
    + exists ph'. by rewrite Hj, lookup_insert_eq.
    + destruct (Ht i0 t0 Hi0) as (ph0 & Hsh0 & Hrec0). exists ph0. split; [done|].
      rewrite lookup_insert_ne; [done|]. intros Heq.
      apply Hne. eapply NoDup_lookup; [exact Hnd| |].
      * by rewrite list_lookup_fmap, Hi.
      * by rewrite list_lookup_fmap, Hi0, Heq.
  - by rewrite Hids.
  - intros j. rewrite Hids, lookup_insert_is_Some. intros [<-|[_ Hj0]]; [|by apply Hdom].
    apply list_elem_of_fmap. exists t. split; [done|]. by eapply list_elem_of_lookup_2.
Qed.

Lemma step_ok s ev : sys_ok s → fresh_uuid s ev → sys_ok (step s ev).
Proof.
  intros Hok Hfresh. destruct ev as [u req| | |i|i o]; cbn;
    [|done|done|by apply resume_task_ok..].
  destruct Hok as [Ht Hnd Hdom]. cbn in Hfresh.
  assert (Hu : u ∉ task_job_id <$> tasks s).
  { intros Hin. apply list_elem_of_fmap in Hin as (t & -> & Hin).
    apply list_elem_of_lookup in Hin as [i Hi].
    destruct (Ht i t Hi) as (ph & _ & Hrec). congruence. }
  unfold summarize_job. split; cbn.
  - intros i t. rewrite lookup_app_Some. intros [Hi|[_ Hi]].
    + destruct (Ht i t Hi) as (ph & Hsh & Hrec). exists ph. split; [done|].
      rewrite lookup_insert_ne; [done|]. intros ->. congruence.
    + apply list_lookup_singleton_Some in Hi as [_ <-].
      exists Created. cbn. by rewrite lookup_insert_eq.
  - rewrite fmap_app. apply NoDup_app. split; [done|]. split.
    + intros j Hj1 Hj2. cbn in Hj2. apply list_elem_of_singleton in Hj2 as ->. done.
    + cbn. apply NoDup_singleton.
  - intros j. rewrite fmap_app, lookup_insert_is_Some, elem_of_app. cbn.
    intros [<-|[_ Hj]]; [right; apply list_elem_of_singleton; done|left; by apply Hdom].
Qed.

Lemma run_ok s evs : sys_ok s → fresh_uuids s evs → sys_ok (run s evs).
Proof.
  revert s. induction evs as [|ev evs IH]; intros s Hok Hf; [done|].
  destruct Hf as [Hf1 Hf2]. apply IH; [by apply step_ok|done].
Qed.

(** The reachable states. *)
Lemma reachable_ok evs : fresh_uuids init evs → sys_ok (run init evs).
Proof. apply run_ok, init_ok. Qed.

Lemma reachable_wf evs : sys_wf (run init evs).
Proof. apply run_wf, init_wf. Qed.

(** ** How the store changes *)

Lemma resume_task_jobs_cases i o s :
  sys_ok s →
  jobs (resume_task i o s) = jobs s ∨
  (∃ j rec', jobs s !! j = Some {["status" := "started"]} ∧
             (rec' = {["status" := "completed"]} ∨
              ∃ e, rec' = {["status" := "failed"; "error" := str e]}) ∧
             jobs (resume_task i o s) = <[j := rec']> (jobs s)).
Proof.
  intros [Ht _ _]. destruct (tasks s !! i) as [t|] eqn:Hi;
    [|left; by rewrite resume_task_None].
  destruct (Ht i t Hi) as (ph & Hsh & Hrec).
  destruct (resume_task_evolves i o s t ph _ Hi Hsh Hrec)
    as (t' & ph' & rec' & -> & _ & _ & Hev).
  pose proof (evolves_expected _ _ _ Hev) as ->. cbn.
  inversion Hev; subst; cbn in *;
    try (left; by apply insert_id);
    right; exists (task_job_id t); eauto 10.
Qed.

(** One event leaves the store alone, or adds a new job as started, or
    takes one started job to a final record. *)
Lemma step_jobs_cases s ev :
  sys_ok s → fresh_uuid s ev →
  jobs (step s ev) = jobs s ∨
  (∃ u, jobs s !! u = None ∧
        jobs (step s ev) = <[u := {["status" := "started"]}]> (jobs s)) ∨
  (∃ j rec', jobs s !! j = Some {["status" := "started"]} ∧
             (rec' = {["status" := "completed"]} ∨
              ∃ e, rec' = {["status" := "failed"; "error" := str e]}) ∧
             jobs (step s ev) = <[j := rec']> (jobs s)).
Proof.
  intros Hok Hfresh. destruct ev as [u req| | |i|i o]; cbn; auto.
  - right; left. exists u. done.
  - destruct (resume_task_jobs_cases i None s Hok); auto.
  - destruct (resume_task_jobs_cases i (Some o) s Hok); auto.
Qed.

(** The records a job can have. *)
Lemma ok_record s j rec :
  sys_ok s → jobs s !! j = Some rec →
  ∃ i t ph, tasks s !! i = Some t ∧ task_job_id t = j ∧ shape t ph ∧
            rec = expected_record ph.
Proof.
  intros [Ht _ Hdom] Hj.
  assert (Hin : j ∈ task_job_id <$> tasks s) by (apply Hdom; eauto).
  apply list_elem_of_fmap in Hin as (t & -> & Hin).
  apply list_elem_of_lookup in Hin as [i Hi].
  destruct (Ht i t Hi) as (ph & Hsh & Hrec).
  exists i, t, ph. repeat split; try done. congruence.
Qed.

Lemma started_not_terminal : ¬ terminal {["status" := "started"]}.
Proof. intros [H|H]; by rewrite lookup_singleton_eq in H. Qed.

(** A final record stays as it is. *)
Lemma terminal_stays s evs j rec :
  sys_ok s → fresh_uuids s evs →
  jobs s !! j = Some rec → terminal rec →
  jobs (run s evs) !! j = Some rec.
Proof.
  revert s. induction evs as [|ev evs IH]; intros s Hok Hf Hj Hterm; [done|].
  destruct Hf as [Hf1 Hf2]. cbn. apply IH; [by apply step_ok|done| |done].
  destruct (step_jobs_cases s ev Hok Hf1)
    as [->|[(u & Hu & ->)|(j' & rec' & Hj' & _ & ->)]]; [done| |].
  - rewrite lookup_insert_ne; [done|]. intros ->. congruence.
  - rewrite lookup_insert_ne; [done|]. intros ->.
    rewrite Hj in Hj'. injection Hj' as ->. by apply started_not_terminal.
Qed.

(** The status of a record in the store is one of the three. *)
Lemma expected_record_status ph :
  expected_record ph = {["status" := "started"]} ∨ terminal (expected_record ph).
Proof. destruct ph; cbn; auto; right; [by left|by right]. Qed.

Lemma lifecycle_run s evs j rec1 :
  sys_ok s → fresh_uuids s evs →
  jobs s !! j = Some rec1 →
  ∃ rec2, jobs (run s evs) !! j = Some rec2 ∧
          (rec2 = rec1 ∨ (rec1 = {["status" := "started"]} ∧ terminal rec2)).
Proof.
  revert s. induction evs as [|ev evs IH]; intros s Hok Hf Hj; [by eauto|].
  destruct Hf as [Hf1 Hf2]. cbn. pose proof (step_ok _ _ Hok Hf1) as Hok1.
  destruct (step_jobs_cases s ev Hok Hf1)
    as [Heq|[(u & Hu & Heq)|(j' & rec' & Hj' & Hterm & Heq)]].
  - apply IH; [done..|]. by rewrite Heq.
  - apply IH; [done..|]. rewrite Heq, lookup_insert_ne; [done|].
    intros ->. congruence.
  - destruct (decide (j' = j)) as [->|Hne].
    + assert (rec1 = {["status" := "started"]}) as -> by congruence.
      assert (Hterm' : terminal rec').
      { destruct Hterm as [->|[e ->]]; [by left|by right]. }
      exists rec'. split; [|by right].
      apply terminal_stays; [done..| |done]. by rewrite Heq, lookup_insert_eq.
    + apply IH; [done..|]. by rewrite Heq, lookup_insert_ne.
Qed.

(** ** Keys and finished tasks stay *)

(** Nothing removes a job from the store. *)
Lemma resume_task_keeps_keys i o s j :
  sys_wf s → is_Some (jobs s !! j) → is_Some (jobs (resume_task i o s) !! j).
Proof.
  intros Hwf Hj.
  destruct (tasks s !! i) as [t|] eqn:Hi; [|by rewrite resume_task_None].
  destruct (Hwf i t Hi) as [[ph Hsh] [rec Hrec]].
  destruct (resume_task_evolves i o s t ph rec Hi Hsh Hrec)
    as (t' & ph' & rec' & -> & _). cbn.
  rewrite lookup_insert_is_Some. destruct (decide (task_job_id t = j)); auto.
Qed.

Lemma step_keeps_keys s ev j :
  sys_wf s → is_Some (jobs s !! j) → is_Some (jobs (step s ev) !! j).
Proof.
  intros Hwf Hj. destruct ev as [u req| | |i|i o]; cbn;
    [|done|done|by apply resume_task_keeps_keys..].
  rewrite lookup_insert_is_Some. destruct (decide (u = j)); auto.
Qed.

Lemma run_keeps_keys s evs j :
  sys_wf s → is_Some (jobs s !! j) → is_Some (jobs (run s evs) !! j).
Proof.
  revert s. induction evs as [|ev evs IH]; intros s Hwf Hj; [done|].
  cbn. apply IH; [by apply step_wf|by apply step_keeps_keys].
Qed.

(** A finished task is never run again. *)
Lemma step_finished s ev i t r :
  tasks s !! i = Some t → task_st t = Finished r →
  tasks (step s ev) !! i = Some t.
Proof.
  intros Hi Hfin.
  assert (Hres : ∀ i' o, tasks (resume_task i' o s) !! i = Some t).
  { intros i' o. unfold resume_task.
    destruct (tasks s !! i') as [t0|] eqn:Hi'; [|done].
    destruct (decide (i' = i)) as [->|Hne].
    - rewrite Hi in Hi'. injection Hi' as <-.
      rewrite (resume_finished _ _ _ _ Hfin). cbn.
      by rewrite list_insert_id.
    - destruct (resume t0 o (jobs s)) as [d' t']. cbn.
      by rewrite list_lookup_insert_ne. }
  destruct ev as [u req| | |i'|i' o]; cbn; try done.
  by apply lookup_app_l_Some.
Qed.

Lemma run_finished s evs i t r :
  tasks s !! i = Some t → task_st t = Finished r →
  tasks (run s evs) !! i = Some t.
Proof.
  revert s. induction evs as [|ev evs IH]; intros s Hi Hfin; [done|].
  cbn. eapply IH; [by eapply step_finished|done].
Qed.

(** ** Reading the phase of a task off its state *)

#[local] Instance Returned_inj : Inj (=) (=) Returned.
Proof. by intros r1 r2 [= ->]. Qed.

Lemma shape_suspended t ph c k :
  shape t ph → task_st t = Suspended c k →
  ∃ rs, ph = Waiting rs ∧ waiting_on (task_job_id t) (task_transcript t) rs c k ∧
        task_calls t = stage_calls (task_job_id t) (task_transcript t) rs ∧
        task_history t = Returned <$> rs.
Proof.
  intros Hsh Hst. destruct ph as [|rs|r1 r2 r3|rs e|rs e]; cbn in Hsh.
  - destruct Hsh as (Hst' & _). congruence.
  - destruct Hsh as ((c' & k' & Hst' & Hw) & Hc & Hh).
    rewrite Hst in Hst'. injection Hst' as <- <-. eauto.
  - destruct Hsh as (Hst' & _). congruence.
  - destruct Hsh as (_ & _ & Hst' & _). congruence.
  - destruct Hsh as (_ & _ & Hst' & _). congruence.
Qed.

Lemma stage_calls_length j tr rs :
  (List.length rs ≤ 2)%nat →
  List.length (stage_calls j tr rs) = S (List.length rs).
Proof. destruct rs as [|? [|? [|? ?]]]; cbn; intros; lia. Qed.

Lemma stage_calls_last j tr rs c k :
  waiting_on j tr rs c k → last (stage_calls j tr rs) = Some c.
Proof.
  destruct rs as [|? [|? [|? ?]]]; cbn; [| | |done]; by intros [-> _].
Qed.

Lemma returned_not_raised (rs rs' : list RunResult) e :
  (Returned <$> rs') ++ [Raised e] ≠ Returned <$> rs.
Proof.
  intros H. apply (f_equal last) in H. rewrite last_snoc, fmap_last in H.
  by destruct (last rs).
Qed.

Lemma shape_returned t ph rs :
  shape t ph → task_history t = Returned <$> rs →
  (0 < List.length rs ≤ 2)%nat → ph = Waiting rs.
Proof.
  intros Hsh Hh Hlen. destruct ph as [|rs'|r1 r2 r3|rs' e|rs' e]; cbn in Hsh.
  - destruct Hsh as (_ & _ & Hh'). rewrite Hh' in Hh.
    destruct rs; [cbn in Hlen; lia|done].
  - destruct Hsh as (_ & _ & Hh'). rewrite Hh' in Hh.
    by apply (inj (fmap Returned)) in Hh as ->.
  - destruct Hsh as (_ & _ & Hh'). rewrite Hh' in Hh.
    apply (f_equal List.length) in Hh. rewrite length_fmap in Hh. cbn in Hh. lia.
  - destruct Hsh as (_ & _ & _ & _ & Hh'). rewrite Hh' in Hh.
    by apply returned_not_raised in Hh.
  - destruct Hsh as (_ & _ & _ & _ & Hh'). rewrite Hh' in Hh.
    by apply returned_not_raised in Hh.
Qed.

(** The calls of a task and the outcomes that led to them. *)
Lemma shape_calls t ph :
  shape t ph →
  task_calls t = [] ∨
  ∃ rs, task_calls t = stage_calls (task_job_id t) (task_transcript t) rs ∧
        Returned <$> rs `prefix_of` task_history t.
Proof.
  destruct ph as [|rs|r1 r2 r3|rs e|rs e]; cbn.
  - intros (_ & -> & _). by left.
  - intros (_ & -> & ->). right. by exists rs.
  - intros (_ & -> & ->). right. exists [r1; r2]. split; [done|].
    by exists [Returned r3].
  - intros (_ & _ & _ & -> & ->). right. exists rs. split; [done|].
    by apply prefix_app_r.
  - intros (_ & _ & _ & -> & ->). right. exists rs. split; [done|].
    by apply prefix_app_r.
Qed.

Lemma shape_third_call t ph c3 :
  shape t ph → task_calls t !! 2%nat = Some c3 →
  ∃ r1 r2,
    task_history t !! 0%nat = Some (Returned r1) ∧
    task_history t !! 1%nat = Some (Returned r2) ∧
    task_calls t !! 0%nat = Some (call1 (task_transcript t)) ∧
    task_calls t !! 1%nat = Some (call2 r1) ∧
    c3 = call3 (task_job_id t) r1 r2.
Proof.
  intros Hsh Hc3. destruct (shape_calls t ph Hsh) as [Hc|(rs & Hc & Hpre)];
    rewrite Hc in *; [done|].
  destruct rs as [|r1 [|r2 rs]]; [done..|]. cbn in Hc3. injection Hc3 as <-.
  exists r1, r2. repeat split; try done.
  - eapply prefix_lookup_Some; [|exact Hpre]. done.
  - eapply prefix_lookup_Some; [|exact Hpre]. done.
Qed.

Lemma shape_no_KeyError t ph key :
  shape t ph → task_st t ≠ Finished (Some (KeyError key)).
Proof.
  destruct ph as [|rs|r1 r2 r3|rs e|rs e]; cbn.
  - intros (-> & _). done.
  - intros ((c & k & -> & _) & _). done.
  - intros (-> & _). done.
  - intros (_ & _ & -> & _). done.
  - intros (He & _ & -> & _) [= ->]. done.
Qed.

(** The pending call of a task raises. *)
Lemma step_raised s i t c k e :
  sys_ok s →
  tasks s !! i = Some t →
  task_st t = Suspended c k →
  isinstance_Exception e = true →
  let s1 := step s (RunnerDone i (Raised e)) in
  jobs s1 !! task_job_id t = Some {["status" := "failed"; "error" := str e]} ∧
  tasks s1 !! i = Some (settle t (Finished None) (task_history t ++ [Raised e])).
Proof.
  intros Hok Hi Hst He. destruct (ok_tasks _ Hok i t Hi) as (ph & Hsh & Hrec).
  destruct (shape_suspended _ _ _ _ Hsh Hst) as (rs & -> & Hw & _).
  cbn. unfold resume_task. rewrite Hi, (resume_suspended _ _ _ _ _ Hst).
  rewrite (waiting_on_raised _ _ _ _ _ e (jobs s) Hw). unfold mark_failed.
  rewrite He, Hrec. cbn. rewrite lookup_insert_eq. split; [done|].
  apply list_lookup_insert_eq. by eapply lookup_lt_Some.
Qed.

(** The third call of a task returns. *)
Lemma step_third_returned s i t r1 r2 r3 :
  sys_ok s →
  tasks s !! i = Some t →
  task_history t = [Returned r1; Returned r2] →
  let s1 := step s (RunnerDone i (Returned r3)) in
  jobs s1 !! task_job_id t = Some {["status" := "completed"]} ∧
  tasks s1 !! i
  = Some (settle t (Finished None) [Returned r1; Returned r2; Returned r3]).
Proof.
  intros Hok Hi Hh. destruct (ok_tasks _ Hok i t Hi) as (ph & Hsh & Hrec).
  assert (ph = Waiting [r1; r2]) by (apply (shape_returned t); [done..|cbn; lia]).
  subst ph.
  destruct Hsh as ((c & k & Hst & _ & Hk) & _ & _).
  cbn. unfold resume_task. rewrite Hi, (resume_suspended _ _ _ _ _ Hst).
  rewrite (Hk (Returned r3) (jobs s)). unfold mark_completed.
  rewrite Hrec, Hh. cbn. rewrite lookup_insert_eq. split; [done|].
  apply list_lookup_insert_eq. by eapply lookup_lt_Some.
Qed.

(** * The claims *)

(** C1, as amended.  Whenever the pending runner call of a job's task (the
    first, second or third) raises an error [e] that is an [Exception], the
    job's record becomes, and from then on stays, status "failed" with an
    error field equal to [str(e)], the textual description of the error;
    the task is finished, and the calls it has issued are for ever those it
    had issued up to the failing one: one more than the number of calls
    that had succeeded, so no later stage is attempted. *)
Theorem runner_error_marks_job_failed evs evs' i t c k e :
  fresh_uuids init (evs ++ RunnerDone i (Raised e) :: evs') →
  tasks (run init evs) !! i = Some t →
  task_st t = Suspended c k →
  isinstance_Exception e = true →
  let s' := run init (evs ++ RunnerDone i (Raised e) :: evs') in
  jobs s' !! task_job_id t = Some {["status" := "failed"; "error" := str e]} ∧
  ∃ t', tasks s' !! i = Some t' ∧
        task_st t' = Finished None ∧
        task_history t' = task_history t ++ [Raised e] ∧
        task_calls t' = task_calls t ∧
        last (task_calls t') = Some c ∧
        List.length (task_calls t') = S (List.length (task_history t)) ∧
        (List.length (task_calls t') ≤ 3)%nat.
Proof.
  intros Hf Hi Hst He s'. subst s'. rewrite run_snoc_app.
  apply fresh_uuids_snoc_app in Hf as (Hf1 & Hf2 & Hf3).
  pose proof (reachable_ok evs Hf1) as Hok.
  destruct (step_raised _ i t c k e Hok Hi Hst He) as [Hj Ht].
  cbv zeta in Hj, Ht.
  pose proof (step_ok _ _ Hok Hf2) as Hok1.
  split.
  - apply terminal_stays; [done..|]. right. done.
  - eexists. split; [by eapply run_finished|]. cbn.
    destruct (ok_tasks _ Hok i t Hi) as (ph & Hsh & _).
    destruct (shape_suspended _ _ _ _ Hsh Hst) as (rs & -> & Hw & Hc & Hh).
    pose proof (waiting_on_length _ _ _ _ _ Hw) as Hlen.
    rewrite Hc, Hh, length_fmap, (stage_calls_length _ _ _ Hlen).
    repeat split; try done; [by eapply stage_calls_last|lia].
Qed.

Lemma runner_error_marks_job_failed_witness :
  jobs (run init (trace1 ++ [RunnerDone 0 (Raised (RunnerError true "boom"));
                             GET_jobs "job-1"])) !! "job-1"
  = Some {["status" := "failed"; "error" := "boom"]}.
Proof.
  pose (t := nth_task (run init trace1) 0).
  destruct (runner_error_marks_job_failed trace1 [GET_jobs "job-1"] 0 t
              (pending_call t) (pending_k t) (RunnerError true "boom"))
    as [H _];
    [vm_compute; repeat split|reflexivity|reflexivity|reflexivity|exact H].
Defined.

(** C1 as it is stated fails where the error has an empty description:
    the error field is then the empty string. *)
Lemma empty_error_text_counterexample :
  isinstance_Exception (RunnerError true "") = true ∧
  jobs (run init trace_empty_error) !! "job-1"
  = Some {["status" := "failed"; "error" := ""]} ∧
  ¬ ∃ msg, jobs (run init trace_empty_error) !! "job-1" ≫= (.!! "error") = Some msg ∧
           msg ≠ "".
Proof.
  split; [done|]. split; [by vm_compute|].
  intros (msg & H & Hne). vm_compute in H. congruence.
Qed.

(** C2, as amended.  In every state of the process, whenever a task has
    issued its third call, with [r1] the result of its first call (to the
    transcriber) and [r2] the result of its second call (to the clarifier,
    on the clean text [final_output r1]): if the output of [r2] is empty,
    the third call is to the summarizer and its input is the clean text; it
    is then the empty string only if the clean text itself is. *)
Theorem clarifier_fallback evs i t c3 r1 r2 :
  tasks (run init evs) !! i = Some t →
  task_calls t !! 2%nat = Some c3 →
  task_history t !! 0%nat = Some (Returned r1) →
  task_history t !! 1%nat = Some (Returned r2) →
  truthy (final_output r2) = false →
  (∃ c1 c2, task_calls t !! 0%nat = Some c1 ∧ call_agent c1 = transcriber ∧
            task_calls t !! 1%nat = Some c2 ∧ call_agent c2 = clarifier ∧
            call_input c2 = final_output r1) ∧
  call_agent c3 = summarizer ∧
  call_input c3 = final_output r1 ∧
  (final_output r1 ≠ PyStr "" → call_input c3 ≠ PyStr "").
Proof.
  intros Hi Hc3 Hh0 Hh1 Hempty.
  destruct (reachable_wf evs i t Hi) as [[ph Hsh] _].
  destruct (shape_third_call t ph c3 Hsh Hc3)
    as (r1' & r2' & Hh0' & Hh1' & Hc1 & Hc2 & ->).
  assert (r1' = r1) as -> by congruence.
  assert (r2' = r2) as -> by congruence.
  split; [by exists (call1 (task_transcript t)), (call2 r1)|].
  cbn. unfold py_or. rewrite Hempty. done.
Qed.

Lemma clarifier_fallback_witness :
  call_input (pending_call (nth_task (run init trace_fallback) 0)) = PyStr "Alice: Hi.".
Proof.
  pose (t := nth_task (run init trace_fallback) 0).
  destruct (clarifier_fallback trace_fallback 0 t (pending_call t)
              (res "Alice: Hi.") (res ""))
    as (_ & _ & H & _);
    [reflexivity|reflexivity|reflexivity|reflexivity|reflexivity|exact H].
Defined.

(** C2 as it is stated fails where the clean text is itself empty: the
    summarizer is then called on the empty string. *)
Lemma empty_clean_text_counterexample :
  task_history (nth_task (run init trace_empty_clean) 0)
  = [Returned (res ""); Returned (res "")] ∧
  truthy (final_output (res "")) = false ∧
  call_agent <$> task_calls (nth_task (run init trace_empty_clean) 0) !! 2%nat
  = Some summarizer ∧
  call_input <$> task_calls (nth_task (run init trace_empty_clean) 0) !! 2%nat
  = Some (PyStr "").
Proof. repeat split; reflexivity. Qed.

(** C3.  A store is a map, so an identifier has one record.  Along every
    run: a record that appears in the store appears as status "started"; a
    record in the store has status "started", "completed" or "failed"; it
    is never removed; and in any later state it is either unchanged or it
    was the started record and has become one with status "completed" or
    "failed".  So a record changes at most once, a final record never
    changes, and none goes back to "started". *)
Theorem job_lifecycle evs1 evs2 j :
  fresh_uuids init (evs1 ++ evs2) →
  (∀ ev evs3 rec, evs2 = ev :: evs3 →
     jobs (run init evs1) !! j = None →
     jobs (step (run init evs1) ev) !! j = Some rec →
     rec = {["status" := "started"]}) ∧
  (∀ rec1, jobs (run init evs1) !! j = Some rec1 →
     (rec1 !! "status" = Some "started" ∨
      rec1 !! "status" = Some "completed" ∨
      rec1 !! "status" = Some "failed") ∧
     ∃ rec2, jobs (run init (evs1 ++ evs2)) !! j = Some rec2 ∧
       (rec2 = rec1 ∨
        (rec1 = {["status" := "started"]} ∧
         (rec2 !! "status" = Some "completed" ∨ rec2 !! "status" = Some "failed")))).
Proof.
  intros Hf. apply fresh_uuids_app in Hf as [Hf1 Hf2].
  pose proof (reachable_ok evs1 Hf1) as Hok. split.
  - intros ev evs3 rec -> Hnone Hsome. destruct Hf2 as [Hf2 _].
    destruct (step_jobs_cases _ ev Hok Hf2)
      as [Heq|[(u & Hu & Heq)|(j' & rec' & Hj' & _ & Heq)]]; rewrite Heq in Hsome.
    + congruence.
    + destruct (decide (u = j)) as [->|Hne].
      * rewrite lookup_insert_eq in Hsome. congruence.
      * rewrite lookup_insert_ne in Hsome by done. congruence.
    + rewrite lookup_insert_ne in Hsome; [congruence|]. intros ->. congruence.
  - intros rec1 Hj. split.
    + destruct (ok_record _ _ _ Hok Hj) as (_ & _ & ph & _ & _ & _ & ->).
      destruct (expected_record_status ph) as [->|Hterm]; [by left|right; exact Hterm].
    + rewrite run_app. by apply lifecycle_run.
Qed.

Lemma job_lifecycle_witness :
  ∃ rec2,
    jobs (run init (trace2 ++ [RunnerDone 0 (Returned (res "Summary sent."));
                               GET_jobs "job-1"])) !! "job-1" = Some rec2 ∧
    (rec2 = {["status" := "started"]} ∨
     ({["status" := "started"]} = ({["status" := "started"]} : gmap string string) ∧
      (rec2 !! "status" = Some "completed" ∨ rec2 !! "status" = Some "failed"))).
Proof.
  destruct (job_lifecycle trace2 [RunnerDone 0 (Returned (res "Summary sent."));
                                  GET_jobs "job-1"] "job-1")
    as [_ H]; [vm_compute; repeat split|].
  destruct (H {["status" := "started"]}) as [_ H2]; [reflexivity|exact H2].
Defined.

(** C4.  When the third runner call of a job's task returns, the first two
    having returned before it, the job's record becomes status "completed"
    with no error field, and it is the same record in every later state. *)
Theorem three_successes_complete_job evs evs' i t r1 r2 r3 :
  fresh_uuids init (evs ++ RunnerDone i (Returned r3) :: evs') →
  tasks (run init evs) !! i = Some t →
  task_history t = [Returned r1; Returned r2] →
  let s' := run init (evs ++ RunnerDone i (Returned r3) :: evs') in
  jobs s' !! task_job_id t = Some {["status" := "completed"]} ∧
  jobs s' !! task_job_id t ≫= (.!! "error") = None ∧
  ∃ t', tasks s' !! i = Some t' ∧
        task_st t' = Finished None ∧
        task_history t' = [Returned r1; Returned r2; Returned r3].
Proof.
  intros Hf Hi Hh s'. subst s'. rewrite run_snoc_app.
  apply fresh_uuids_snoc_app in Hf as (Hf1 & Hf2 & Hf3).
  pose proof (reachable_ok evs Hf1) as Hok.
  destruct (step_third_returned _ i t r1 r2 r3 Hok Hi Hh) as [Hj Ht].
  cbv zeta in Hj, Ht.
  pose proof (step_ok _ _ Hok Hf2) as Hok1.
  assert (Hj' : jobs (run (step (run init evs) (RunnerDone i (Returned r3))) evs')
                  !! task_job_id t = Some {["status" := "completed"]}).
  { apply terminal_stays; [done..|]. by left. }
  split; [done|]. split; [by rewrite Hj'|].
  eexists. split; [by eapply run_finished|]. done.
Qed.

Lemma three_successes_complete_job_witness :
  jobs (run init (trace2 ++ [RunnerDone 0 (Returned (res "Summary sent."));
                             RunnerDone 0 (Raised (RunnerError true "late"));
                             POST_summarize "job-2" req1])) !! "job-1"
  = Some {["status" := "completed"]}.
Proof.
  pose (t := nth_task (run init trace2) 0).
  destruct (three_successes_complete_job trace2
              [RunnerDone 0 (Raised (RunnerError true "late"));
               POST_summarize "job-2" req1]
              0 t (res "Alice: Hi.") (res "Alice greets; Bob proposes Friday.")
              (res "Summary sent."))
    as [H _];
    [vm_compute; repeat split|reflexivity|reflexivity|exact H].
Defined.

(** C5.  In every state of the process, a submission is answered 200 with
    the generated identifier and status "queued"; the store then holds the
    record status "started" for that identifier, so that a status query
    coming next is answered 200 with that record; and a status query for
    it at any later time is answered 200 with a record, never 404. *)
Theorem submit_then_status evs uuid4 req :
  response (run init evs) (POST_summarize uuid4 req)
  = Some {| resp_status := 200;
            resp_body := {["job_id" := uuid4; "status" := "queued"]} |} ∧
  jobs (step (run init evs) (POST_summarize uuid4 req)) !! uuid4
  = Some {["status" := "started"]} ∧
  response (step (run init evs) (POST_summarize uuid4 req)) (GET_jobs uuid4)
  = Some {| resp_status := 200; resp_body := {["status" := "started"]} |} ∧
  ∀ evs', ∃ rec,
    response (run init (evs ++ POST_summarize uuid4 req :: evs')) (GET_jobs uuid4)
    = Some {| resp_status := 200; resp_body := rec |}.
Proof.
  assert (Hj : jobs (step (run init evs) (POST_summarize uuid4 req)) !! uuid4
               = Some {["status" := "started"]}).
  { cbn. apply lookup_insert_eq. }
  split; [done|]. split; [done|]. split.
  - cbn [response]. unfold get_job. by rewrite Hj.
  - intros evs'. rewrite run_snoc_app. cbn [response]. unfold get_job.
    destruct (run_keeps_keys (step (run init evs) (POST_summarize uuid4 req))
                evs' uuid4) as [rec ->]; [|by rewrite Hj|by exists rec].
    apply step_wf, reachable_wf.
Qed.

(** C6.  A status query for an identifier that is not in the store raises
    the 404 exception with detail "job not found", which is answered as
    such; for an identifier in the store the answer is 200 with the current
    record. *)
Theorem status_of_unknown_job (s : sys) (job_id : string) :
  (jobs s !! job_id = None →
   get_job job_id (jobs s) = inl (mkHTTPException 404 "job not found") ∧
   response s (GET_jobs job_id)
   = Some {| resp_status := 404; resp_body := {["detail" := "job not found"]} |}) ∧
  (∀ rec, jobs s !! job_id = Some rec →
   get_job job_id (jobs s) = inr rec ∧
   response s (GET_jobs job_id) = Some {| resp_status := 200; resp_body := rec |}).
Proof.
  split.
  - intros H. cbn. unfold get_job. by rewrite H.
  - intros rec H. cbn. unfold get_job. by rewrite H.
Qed.

Lemma status_of_unknown_job_witness :
  response (run init trace1) (GET_jobs "job-2")
  = Some {| resp_status := 404; resp_body := {["detail" := "job not found"]} |} ∧
  response (run init trace1) (GET_jobs "job-1")
  = Some {| resp_status := 200; resp_body := {["status" := "started"]} |}.
Proof.
  split.
  - apply (proj1 (status_of_unknown_job (run init trace1) "job-2")). reflexivity.
  - apply (proj2 (status_of_unknown_job (run init trace1) "job-1")). reflexivity.
Defined.

(** C7.  In every state of a run, a record with an error field has status
    "failed", and the field is the [str] of the exception that the job's
    task was resumed with at its last await and caught: the task has
    finished, and the last outcome in its history is that exception, an
    instance of [Exception]. *)
Theorem error_field_only_when_failed evs j rec msg :
  fresh_uuids init evs →
  jobs (run init evs) !! j = Some rec →
  rec !! "error" = Some msg →
  rec !! "status" = Some "failed" ∧
  ∃ i t rs e,
    tasks (run init evs) !! i = Some t ∧ task_job_id t = j ∧
    task_st t = Finished None ∧
    task_history t = (Returned <$> rs) ++ [Raised e] ∧
    isinstance_Exception e = true ∧
    msg = str e.
Proof.
  intros Hf Hj Herr. pose proof (reachable_ok evs Hf) as Hok.
  destruct (ok_record _ _ _ Hok Hj) as (i & t & ph & Hi & Hjt & Hsh & ->).
  destruct ph as [|rs|r1 r2 r3|rs e|rs e]; cbn in Herr; try done.
  rewrite lookup_insert_ne, lookup_singleton_eq in Herr by done.
  injection Herr as <-. split; [done|].
  destruct Hsh as (He & _ & Hst & _ & Hh). by exists i, t, rs, e.
Qed.

Lemma error_field_only_when_failed_witness :
  ∃ i t rs e,
    tasks (run init (trace1 ++ [RunnerDone 0 (Raised (RunnerError true "boom"))])) !! i
    = Some t ∧
    task_job_id t = "job-1" ∧
    task_st t = Finished None ∧
    task_history t = (Returned <$> rs) ++ [Raised e] ∧
    isinstance_Exception e = true ∧
    "boom" = str e.
Proof.
  destruct (error_field_only_when_failed
              (trace1 ++ [RunnerDone 0 (Raised (RunnerError true "boom"))])
              "job-1" {["status" := "failed"; "error" := "boom"]} "boom")
    as [_ H]; [vm_compute; repeat split|reflexivity|reflexivity|exact H].
Defined.

(** C8.  In every state of the process, the third call of a task is a call
    to the summarizer, its input is the clarified text (the output of the
    second call or, if that is empty, the output of the first), and its
    context holds the fixed recipient list and the subject line made of
    "Summary #" and the job identifier. *)
Theorem summarizer_call evs i t c3 :
  tasks (run init evs) !! i = Some t →
  task_calls t !! 2%nat = Some c3 →
  ∃ r1 r2,
    task_history t !! 0%nat = Some (Returned r1) ∧
    task_history t !! 1%nat = Some (Returned r2) ∧
    call_agent c3 = summarizer ∧
    call_input c3 = py_or (final_output r2) (final_output r1) ∧
    call_context c3 = Some {| recipients := ["team@example.com"];
                              subject := "Summary #" +:+ task_job_id t |} ∧
    is_Some (jobs (run init evs) !! task_job_id t).
Proof.
  intros Hi Hc3. destruct (reachable_wf evs i t Hi) as [[ph Hsh] Hj].
  destruct (shape_third_call t ph c3 Hsh Hc3)
    as (r1 & r2 & Hh0 & Hh1 & _ & _ & ->).
  by exists r1, r2.
Qed.

Lemma summarizer_call_witness :
  call_context (pending_call (nth_task (run init trace2) 0))
  = Some {| recipients := ["team@example.com"]; subject := "Summary #job-1" |}.
Proof.
  pose (t := nth_task (run init trace2) 0).
  destruct (summarizer_call trace2 0 t (pending_call t))
    as (r1 & r2 & _ & _ & _ & _ & H & _);
    [reflexivity|reflexivity|exact H].
Defined.

(** C9, on the code.  The transcriber and the summarizer have a string for
    instructions; the clarifier has a one-element tuple holding a string,
    because of the comma that ends the parenthesised literal.  The model of
    each is the string "gemini-1.5-flash", and the tools are none, none and
    the send-email stub. *)
Theorem clarifier_instructions_are_a_tuple :
  is_str (instructions transcriber) = true ∧
  is_str (instructions summarizer) = true ∧
  is_str (instructions clarifier) = false ∧
  instructions clarifier
  = PyTuple [PyStr "Read the transcript and ask the summarizer to resolve any ambiguous points before final summary is produced."] ∧
  model transcriber = "gemini-1.5-flash" ∧
  model clarifier = "gemini-1.5-flash" ∧
  model summarizer = "gemini-1.5-flash" ∧
  tools transcriber = [] ∧ tools clarifier = [] ∧ tools summarizer = [send_email].
Proof. repeat split; reflexivity. Qed.

(** C10.  In every state of the process, whatever the identifiers were:
    the job of every task is a key of the store, so that an update
    [jobs[job_id][key] = value] made by the task there goes through and
    does not raise; no task has ever ended with a [KeyError]; and no event
    removes a key from the store. *)
Theorem store_updates_find_their_job evs i t :
  tasks (run init evs) !! i = Some t →
  is_Some (jobs (run init evs) !! task_job_id t) ∧
  (∀ key value, ∃ rec,
     jobs (run init evs) !! task_job_id t = Some rec ∧
     advance (jobs_setitem (task_job_id t) key value) (jobs (run init evs))
     = (<[task_job_id t := <[key := value]> rec]> (jobs (run init evs)),
        Finished None)) ∧
  (∀ key, task_st t ≠ Finished (Some (KeyError key))) ∧
  (∀ ev j, is_Some (jobs (run init evs) !! j) →
           is_Some (jobs (step (run init evs) ev) !! j)).
Proof.
  intros Hi. destruct (reachable_wf evs i t Hi) as [[ph Hsh] [rec Hrec]].
  split; [by exists rec|]. split; [|split].
  - intros key value. exists rec. split; [done|]. cbn. by rewrite Hrec.
  - intros key. by eapply shape_no_KeyError.
  - intros ev j. apply step_keeps_keys, reachable_wf.
Qed.

Lemma store_updates_find_their_job_witness :
  is_Some (jobs (run init trace_collision) !! "job-1") ∧
  task_st (nth_task (run init trace_collision) 0) ≠ Finished (Some (KeyError "job-1")).
Proof.
  destruct (store_updates_find_their_job trace_collision 1
              (nth_task (run init trace_collision) 1))
    as (H1 & _ & _ & _); [reflexivity|].
  destruct (store_updates_find_their_job trace_collision 0
              (nth_task (run init trace_collision) 0))
    as (_ & _ & H2 & _); [reflexivity|].
  split; [exact H1|exact (H2 "job-1")].
Defined.

(** ** What the hypotheses are for *)

(** The store update does raise where the job is missing: a task resumed
    over an empty store ends with [KeyError]. *)
Example update_without_job_raises :
  task_st <$> tasks (resume_task 0 (Some (Returned (res "Summary sent.")))
                       {| jobs := ∅; tasks := tasks (run init trace2) |}) !! 0%nat
  = Some (Finished (Some (KeyError "job-1"))).
Proof. reflexivity. Qed.

(** A colliding identifier starts the record of a finished job again. *)
Example collision_restarts_job :
  jobs (run init (take 3 trace_collision)) !! "job-1"
  = Some {["status" := "failed"; "error" := "boom"]} ∧
  jobs (run init trace_collision) !! "job-1" = Some {["status" := "started"]}.
Proof. split; by vm_compute. Qed.

(** An exception that is not an [Exception] is not caught: the task ends
    with it and the job stays started. *)
Example cancellation_leaves_job_started :
  let s := run init (trace1 ++ [RunnerDone 0 (Raised (RunnerError false "cancelled"))]) in
  jobs s !! "job-1" = Some {["status" := "started"]} ∧
  task_st <$> tasks s !! 0%nat = Some (Finished (Some (RunnerError false "cancelled"))).
Proof. split; by vm_compute. Qed.

(** * Further properties *)

(** ** Tasks keep their identity *)

Lemma resume_identity t o d :
  task_job_id (resume t o d).2 = task_job_id t ∧
  task_transcript (resume t o d).2 = task_transcript t.
Proof.
  unfold resume. destruct (task_st t) as [body|c k|r], o as [o|]; try done.
  - by destruct (advance body d).
  - by destruct (advance (k o) d).
Qed.

Lemma step_task_identity s ev i t :
  tasks s !! i = Some t →
  ∃ t', tasks (step s ev) !! i = Some t' ∧
        task_job_id t' = task_job_id t ∧
        task_transcript t' = task_transcript t.
Proof.
  intros Hi.
  assert (Hres : ∀ i' o, ∃ t', tasks (resume_task i' o s) !! i = Some t' ∧
            task_job_id t' = task_job_id t ∧
            task_transcript t' = task_transcript t).
  { intros i' o. unfold resume_task.
    destruct (tasks s !! i') as [t0|] eqn:Hi'; [|by exists t].
    pose proof (resume_identity t0 o (jobs s)) as Hid.
    destruct (resume t0 o (jobs s)) as [d' t']. cbn in *.
    destruct (decide (i' = i)) as [->|Hne].
    - exists t'. rewrite list_lookup_insert_eq by by eapply lookup_lt_Some.
      assert (t0 = t) as -> by congruence. by destruct Hid.
    - exists t. by rewrite list_lookup_insert_ne. }
  destruct ev as [u req| | |i'|i' o]; cbn; eauto.
  exists t. split; [|done]. by apply lookup_app_l_Some.
Qed.

Lemma run_task_identity s evs i t :
  tasks s !! i = Some t →
  ∃ t', tasks (run s evs) !! i = Some t' ∧
        task_job_id t' = task_job_id t ∧
        task_transcript t' = task_transcript t.
Proof.
  revert s t. induction evs as [|ev evs IH]; intros s t Hi; [by exists t|].
  destruct (step_task_identity s ev i t Hi) as (t1 & Hi1 & Hj1 & Htr1).
  destruct (IH _ _ Hi1) as (t' & Hi' & Hj' & Htr'). cbn.
  exists t'. split; [done|]. split; congruence.
Qed.

(** ** The calls of a task *)

Lemma shape_first_call t ph c1 :
  shape t ph → task_calls t !! 0%nat = Some c1 →
  c1 = call1 (task_transcript t).
Proof.
  intros Hsh Hc1. destruct (shape_calls t ph Hsh) as [Hc|(rs & Hc & _)];
    rewrite Hc in Hc1; [done|]. cbn in Hc1. congruence.
Qed.

Lemma shape_second_call t ph c2 :
  shape t ph → task_calls t !! 1%nat = Some c2 →
  ∃ r1, task_history t !! 0%nat = Some (Returned r1) ∧ c2 = call2 r1.
Proof.
  intros Hsh Hc2. destruct (shape_calls t ph Hsh) as [Hc|(rs & Hc & Hpre)];
    rewrite Hc in Hc2; [done|].
  destruct rs as [|r1 rs]; [done|]. cbn in Hc2. injection Hc2 as <-.
  exists r1. split; [|done]. eapply prefix_lookup_Some; [|exact Hpre]. done.
Qed.

Lemma stage_calls_agents j tr rs :
  call_agent <$> stage_calls j tr rs `prefix_of` [transcriber; clarifier; summarizer].
Proof.
  destruct rs as [|r1 [|r2 rs]]; cbn.
  - by exists [clarifier; summarizer].
  - by exists [summarizer].
  - by exists [].
Qed.

Lemma shape_counts t ph :
  shape t ph →
  (List.length (task_history t) ≤ List.length (task_calls t)
   ≤ S (List.length (task_history t)))%nat.
Proof.
  destruct ph as [|rs|r1 r2 r3|rs e|rs e]; cbn.
  - intros (_ & -> & ->). cbn. lia.
  - intros ((c & k & _ & Hw) & -> & ->).
    pose proof (waiting_on_length _ _ _ _ _ Hw) as Hlen.
    rewrite length_fmap, stage_calls_length by done. lia.
  - intros (_ & -> & ->). cbn. lia.
  - intros (_ & Hlen & _ & -> & ->).
    rewrite length_app, length_fmap, stage_calls_length by done. cbn. lia.
  - intros (_ & Hlen & _ & -> & ->).
    rewrite length_app, length_fmap, stage_calls_length by done. cbn. lia.
Qed.

(** X1.  The task created by a submission is the next one of the loop; in
    every later state it still carries the submitted identifier, and its
    first call, once issued, is [Runner.run(transcriber, transcript)] on
    the submitted transcript, with no context. *)
Theorem transcriber_gets_submitted_transcript evs uuid4 req evs' :
  ∃ t,
    tasks (run init (evs ++ POST_summarize uuid4 req :: evs'))
      !! List.length (tasks (run init evs)) = Some t ∧
    task_job_id t = uuid4 ∧
    ∀ c1, task_calls t !! 0%nat = Some c1 →
          call_agent c1 = transcriber ∧
          call_input c1 = PyStr (transcript req) ∧
          call_context c1 = None.
Proof.
  rewrite run_snoc_app.
  destruct (run_task_identity (step (run init evs) (POST_summarize uuid4 req)) evs'
              (List.length (tasks (run init evs)))
              (create_task uuid4 (transcript req)))
    as (t & Hi & Hj & Htr).
  { cbn. by rewrite lookup_app_r, Nat.sub_diag. }
  exists t. split; [done|]. split; [done|]. intros c1 Hc1.
  rewrite <- run_snoc_app in Hi.
  destruct (reachable_wf _ _ t Hi) as [[ph Hsh] _].
  rewrite (shape_first_call t ph c1 Hsh Hc1), Htr. done.
Qed.

Lemma transcriber_gets_submitted_transcript_witness :
  call_input <$> task_calls (nth_task (run init trace_two_jobs) 1) !! 0%nat
  = Some (PyStr "Carol: Budget?").
Proof.
  destruct (transcriber_gets_submitted_transcript
              [POST_summarize "job-1" req1] "job-2"
              {| transcript := "Carol: Budget?" |} (drop 2 trace_two_jobs))
    as (t & Hi & _ & H).
  assert (t = nth_task (run init trace_two_jobs) 1) as ->.
  { change (tasks (run init trace_two_jobs) !! 1%nat = Some t) in Hi.
    unfold nth_task. by rewrite Hi. }
  destruct (H (call1 "Carol: Budget?")) as (_ & H2 & _); [reflexivity|].
  reflexivity.
Defined.

(** X2.  In every state of the process, the second call of a task is
    [Runner.run(clarifier, clean_text)] with no context, where the clean
    text is the output of the first call as it came back, whatever it is. *)
Theorem clarifier_gets_clean_text evs i t c2 :
  tasks (run init evs) !! i = Some t →
  task_calls t !! 1%nat = Some c2 →
  ∃ r1, task_history t !! 0%nat = Some (Returned r1) ∧
        call_agent c2 = clarifier ∧
        call_input c2 = final_output r1 ∧
        call_context c2 = None.
Proof.
  intros Hi Hc2. destruct (reachable_wf evs i t Hi) as [[ph Hsh] _].
  destruct (shape_second_call t ph c2 Hsh Hc2) as (r1 & Hh & ->).
  by exists r1.
Qed.

(** One job, whose transcriber has returned [None]. *)
Lemma clarifier_gets_clean_text_witness :
  call_input <$>
    task_calls (nth_task (run init [POST_summarize "job-1" req1; TaskStart 0;
                                    RunnerDone 0 (Returned {| final_output := PyNone |})])
                         0) !! 1%nat
  = Some PyNone.
Proof.
  pose (evs := [POST_summarize "job-1" req1; TaskStart 0;
                RunnerDone 0 (Returned {| final_output := PyNone |})]).
  destruct (clarifier_gets_clean_text evs 0 (nth_task (run init evs) 0)
              (call2 {| final_output := PyNone |}))
    as (r1 & _ & _ & H & _); [reflexivity|reflexivity|].
  reflexivity.
Defined.

(** X3.  In every state of the process, the agents a task has called are,
    in order, a prefix of transcriber, clarifier, summarizer: never more
    than three calls, none repeated, none out of order.  And every call
    but possibly the last has had its outcome: a stage is only started
    once the one before has come back. *)
Theorem calls_follow_the_pipeline evs i t :
  tasks (run init evs) !! i = Some t →
  call_agent <$> task_calls t `prefix_of` [transcriber; clarifier; summarizer] ∧
  (List.length (task_history t) ≤ List.length (task_calls t)
   ≤ S (List.length (task_history t)))%nat.
Proof.
  intros Hi. destruct (reachable_wf evs i t Hi) as [[ph Hsh] _].
  split; [|by eapply shape_counts].
  destruct (shape_calls t ph Hsh) as [->|(rs & -> & _)].
  - apply prefix_nil.
  - apply stage_calls_agents.
Qed.

Lemma calls_follow_the_pipeline_witness :
  call_agent <$> task_calls (nth_task (run init trace_two_jobs) 1)
    `prefix_of` [transcriber; clarifier; summarizer].
Proof.
  apply (calls_follow_the_pipeline trace_two_jobs 1). reflexivity.
Defined.

(** X4.  In every state of the process, when the second call of a task
    has returned an output that is not empty, the third call is made on
    that output, not on the clean text. *)
Theorem clarifier_output_is_passed_on evs i t c3 r2 :
  tasks (run init evs) !! i = Some t →
  task_calls t !! 2%nat = Some c3 →
  task_history t !! 1%nat = Some (Returned r2) →
  truthy (final_output r2) = true →
  call_input c3 = final_output r2.
Proof.
  intros Hi Hc3 Hh1 Hfull. destruct (reachable_wf evs i t Hi) as [[ph Hsh] _].
  destruct (shape_third_call t ph c3 Hsh Hc3)
    as (r1 & r2' & _ & Hh1' & _ & _ & ->).
  assert (r2' = r2) as -> by congruence.
  cbn. unfold py_or. by rewrite Hfull.
Qed.

Lemma clarifier_output_is_passed_on_witness :
  call_input (pending_call (nth_task (run init trace2) 0))
  = PyStr "Alice greets; Bob proposes Friday.".
Proof.
  pose (t := nth_task (run init trace2) 0).
  apply (clarifier_output_is_passed_on trace2 0 t (pending_call t)
           (res "Alice greets; Bob proposes Friday."));
    reflexivity.
Defined.

(** ** The record of a job and the progress of its task *)

Lemma shape_expected_history t ph :
  shape t ph → expected_record ph = record_of_history (task_history t).
Proof.
  unfold record_of_history. destruct ph as [|rs|r1 r2 r3|rs e|rs e]; cbn.
  - intros (_ & _ & ->). done.
  - intros ((c & k & _ & Hw) & _ & ->).
    pose proof (waiting_on_length _ _ _ _ _ Hw) as Hlen.
    rewrite fmap_last. destruct (last rs); cbn; [|done].
    rewrite length_fmap. case_decide; [lia|done].
  - intros (_ & _ & ->). done.
  - intros (He & _ & _ & _ & ->). by rewrite last_snoc, He.
  - intros (He & _ & _ & _ & ->). by rewrite last_snoc, He.
Qed.

Lemma shape_unfinished t ph :
  shape t ph → (∀ r, task_st t ≠ Finished r) →
  expected_record ph = {["status" := "started"]}.
Proof.
  destruct ph as [|rs|r1 r2 r3|rs e|rs e]; cbn; try done.
  - intros (Hst & _) Hnf. by destruct (Hnf None).
  - intros (_ & _ & Hst & _) Hnf. by destruct (Hnf None).
Qed.

Lemma shape_propagated t ph e :
  shape t ph → task_st t = Finished (Some e) →
  expected_record ph = {["status" := "started"]}.
Proof.
  destruct ph as [|rs|r1 r2 r3|rs e'|rs e']; cbn; try done.
  - intros (Hst & _). congruence.
  - intros (_ & _ & Hst & _). congruence.
Qed.

(** X5.  With identifiers that do not collide: as long as the task of a
    job has not finished (it is scheduled, or awaiting one of its calls),
    the record of the job is status "started" and nothing else, and this
    is what a status query is answered. *)
Theorem unfinished_job_is_started evs i t :
  fresh_uuids init evs →
  tasks (run init evs) !! i = Some t →
  (∀ r, task_st t ≠ Finished r) →
  jobs (run init evs) !! task_job_id t = Some {["status" := "started"]} ∧
  response (run init evs) (GET_jobs (task_job_id t))
  = Some {| resp_status := 200; resp_body := {["status" := "started"]} |}.
Proof.
  intros Hf Hi Hnf. destruct (ok_tasks _ (reachable_ok evs Hf) i t Hi)
    as (ph & Hsh & Hrec).
  rewrite (shape_unfinished t ph Hsh Hnf) in Hrec. split; [done|].
  cbn. unfold get_job. by rewrite Hrec.
Qed.

Lemma unfinished_job_is_started_witness :
  response (run init (take 10 trace_two_jobs)) (GET_jobs "job-1")
  = Some {| resp_status := 200; resp_body := {["status" := "started"]} |}.
Proof.
  apply (unfinished_job_is_started (take 10 trace_two_jobs) 0
           (nth_task (run init (take 10 trace_two_jobs)) 0)).
  - vm_compute. repeat split.
  - reflexivity.
  - intros r. vm_compute. discriminate.
Defined.

(** X6.  With identifiers that do not collide: when the pending call of a
    task raises something that is not an [Exception], nothing is caught
    and nothing is recorded: the task ends with that exception, having
    made no further call, and the record of its job is status "started",
    without an error field, in every later state. *)
Theorem bare_exception_is_not_recorded evs evs' i t c k e :
  fresh_uuids init (evs ++ RunnerDone i (Raised e) :: evs') →
  tasks (run init evs) !! i = Some t →
  task_st t = Suspended c k →
  isinstance_Exception e = false →
  jobs (run init (evs ++ RunnerDone i (Raised e) :: evs')) !! task_job_id t
  = Some {["status" := "started"]} ∧
  ∃ t', tasks (run init (evs ++ RunnerDone i (Raised e) :: evs')) !! i = Some t' ∧
        task_st t' = Finished (Some e) ∧
        task_calls t' = task_calls t.
Proof.
  intros Hf Hi Hst He.
  pose proof (reachable_ok _ Hf) as Hok'. rewrite run_snoc_app in *.
  destruct (reachable_wf evs i t Hi) as [[ph Hsh] _].
  destruct (shape_suspended _ _ _ _ Hsh Hst) as (rs & -> & Hw & _).
  assert (Hi1 : tasks (step (run init evs) (RunnerDone i (Raised e))) !! i
                = Some (settle t (Finished (Some e)) (task_history t ++ [Raised e]))).
  { cbn. unfold resume_task. rewrite Hi, (resume_suspended _ _ _ _ _ Hst).
    rewrite (waiting_on_raised _ _ _ _ _ e _ Hw). unfold mark_failed. rewrite He.
    cbn. apply list_lookup_insert_eq. by eapply lookup_lt_Some. }
  pose proof (run_finished _ evs' _ _ _ Hi1 eq_refl) as Hi'.
  split; [|by eexists].
  destruct (ok_tasks _ Hok' _ _ Hi') as (ph' & Hsh' & Hrec).
  by rewrite (shape_propagated _ ph' e Hsh' eq_refl) in Hrec.
Qed.

Lemma bare_exception_is_not_recorded_witness :
  jobs (run init (trace1 ++ [RunnerDone 0 (Raised (RunnerError false "cancelled"));
                             GET_jobs "job-1"])) !! "job-1"
  = Some {["status" := "started"]}.
Proof.
  pose (t := nth_task (run init trace1) 0).
  destruct (bare_exception_is_not_recorded trace1 [GET_jobs "job-1"] 0 t
              (pending_call t) (pending_k t) (RunnerError false "cancelled"))
    as [H _];
    [vm_compute; repeat split|reflexivity|reflexivity|reflexivity|exact H].
Defined.

(** X7.  With identifiers that do not collide, the record of a job is
    determined by the outcomes its own task has been resumed with, and by
    nothing else that happened in the process: failed with the error's
    text once an [Exception] has come, completed once three results have,
    started otherwise. *)
Theorem record_follows_own_outcomes evs i t :
  fresh_uuids init evs →
  tasks (run init evs) !! i = Some t →
  jobs (run init evs) !! task_job_id t = Some (record_of_history (task_history t)).
Proof.
  intros Hf Hi. destruct (ok_tasks _ (reachable_ok evs Hf) i t Hi)
    as (ph & Hsh & Hrec).
  by rewrite <- (shape_expected_history t ph Hsh).
Qed.

Lemma record_follows_own_outcomes_witness :
  jobs (run init trace_two_jobs) !! "job-1" = Some {["status" := "completed"]} ∧
  jobs (run init trace_two_jobs) !! "job-2"
  = Some {["status" := "failed"; "error" := "quota exceeded"]}.
Proof.
  split.
  - apply (record_follows_own_outcomes trace_two_jobs 0
             (nth_task (run init trace_two_jobs) 0));
      [vm_compute; repeat split|reflexivity].
  - apply (record_follows_own_outcomes trace_two_jobs 1
             (nth_task (run init trace_two_jobs) 1));
      [vm_compute; repeat split|reflexivity].
Defined.

(** ** What one event can change *)

(** X8.  In every state of the process, whatever the identifiers were,
    starting or resuming a task leaves the records of all other jobs as
    they are, and changes the record of its own job, if at all, by
    assigning fields in place: status "completed", or status "failed"
    and the error text.  Any other field the record has is kept; in
    particular completion does not clear an error field that is there. *)
Theorem task_step_assigns_own_fields evs i o t :
  tasks (run init evs) !! i = Some t →
  (∀ j, j ≠ task_job_id t →
        jobs (resume_task i o (run init evs)) !! j = jobs (run init evs) !! j) ∧
  ∃ rec rec',
    jobs (run init evs) !! task_job_id t = Some rec ∧
    jobs (resume_task i o (run init evs)) !! task_job_id t = Some rec' ∧
    (rec' = rec ∨
     rec' = <["status" := "completed"]> rec ∨
     ∃ e, rec' = <["error" := str e]> (<["status" := "failed"]> rec)).
Proof.
  intros Hi. destruct (reachable_wf evs i t Hi) as [[ph Hsh] [rec Hrec]].
  destruct (resume_task_evolves i o _ t ph rec Hi Hsh Hrec)
    as (t' & ph' & rec' & -> & _ & _ & Hev). cbn. split.
  - intros j Hne. by rewrite lookup_insert_ne.
  - exists rec, rec'. rewrite lookup_insert_eq. split; [done|]. split; [done|].
    inversion Hev; subst; eauto.
Qed.

(** After a collision, the second task of the identifier completes a
    record that the first had marked failed: the error stays. *)
Lemma task_step_assigns_own_fields_witness :
  jobs (step (run init trace_stale_error) (RunnerDone 1 (Returned (res "Summary sent."))))
    !! "job-1"
  = Some (<["status" := "completed"]> {["status" := "failed"; "error" := "boom"]}).
Proof.
  destruct (task_step_assigns_own_fields trace_stale_error 1
              (Some (Returned (res "Summary sent.")))
              (nth_task (run init trace_stale_error) 1))
    as (_ & rec & rec' & H1 & H2 & _); [reflexivity|].
  by vm_compute.
Defined.


(** ** Counting *)

Lemma resume_task_length i o s :
  List.length (tasks (resume_task i o s)) = List.length (tasks s).
Proof.
  unfold resume_task. destruct (tasks s !! i) as [t|]; [|done].
  destruct (resume t o (jobs s)) as [d' t']. cbn. apply length_insert.
Qed.

Lemma run_tasks_length s evs :
  List.length (tasks (run s evs)) = (List.length (tasks s) + submissions evs)%nat.
Proof.
  revert s. induction evs as [|ev evs IH]; intros s; [cbn; lia|].
  cbn [run foldl]. fold (run (step s ev) evs). rewrite IH.
  destruct ev as [u req|j| |i|i o]; cbn; unfold submissions; cbn;
    rewrite ?length_app, ?resume_task_length; cbn; lia.
Qed.

Lemma ok_size s : sys_ok s → size (jobs s) = List.length (tasks s).
Proof.
  intros [Ht Hnd Hdom].
  assert (Heq : dom (jobs s) = list_to_set (task_job_id <$> tasks s)).
  { apply set_eq. intros j. rewrite elem_of_dom, elem_of_list_to_set. split.
    - apply Hdom.
    - intros Hin. apply list_elem_of_fmap in Hin as (t & -> & Hin).
      apply list_elem_of_lookup in Hin as [i Hi].
      destruct (Ht i t Hi) as (ph & _ & Hrec). eauto. }
  rewrite <- size_dom, Heq, size_list_to_set by done. apply length_fmap.
Qed.

(** X10.  In every state of a run there are as many tasks as there were
    submissions; and with identifiers that do not collide there are as
    many records in the store, and no two tasks are for the same job. *)
Theorem one_task_and_record_per_submission evs :
  List.length (tasks (run init evs)) = submissions evs ∧
  (fresh_uuids init evs →
   size (jobs (run init evs)) = submissions evs ∧
   NoDup (task_job_id <$> tasks (run init evs))).
Proof.
  pose proof (run_tasks_length init evs) as Hlen. cbn in Hlen.
  split; [done|]. intros Hf. pose proof (reachable_ok evs Hf) as Hok.
  split; [by rewrite ok_size|apply Hok].
Qed.

Lemma one_task_and_record_per_submission_witness :
  size (jobs (run init trace_two_jobs)) = 2%nat.
Proof.
  apply (proj2 (one_task_and_record_per_submission trace_two_jobs)).
  vm_compute. repeat split.
Defined.

(** X11.  With identifiers that do not collide: once a status query has
    been answered with a record whose status is "completed" or "failed",
    every later status query for that identifier gets the same answer. *)
Theorem final_answer_is_repeated evs evs' j body :
  fresh_uuids init (evs ++ evs') →
  response (run init evs) (GET_jobs j)
  = Some {| resp_status := 200; resp_body := body |} →
  body !! "status" = Some "completed" ∨ body !! "status" = Some "failed" →
  response (run init (evs ++ evs')) (GET_jobs j)
  = Some {| resp_status := 200; resp_body := body |}.
Proof.
  intros Hf Hresp Hterm. apply fresh_uuids_app in Hf as [Hf1 Hf2].
  cbn in Hresp |- *. unfold get_job in *.
  destruct (jobs (run init evs) !! j) as [rec|] eqn:Hj; [|done].
  cbn in Hresp. assert (rec = body) as -> by congruence.
  rewrite run_app.
  by rewrite (terminal_stays _ evs' j body (reachable_ok evs Hf1) Hf2 Hj Hterm).
Qed.

Lemma final_answer_is_repeated_witness :
  response (run init trace_two_jobs) (GET_jobs "job-2")
  = Some {| resp_status := 200;
            resp_body := {["status" := "failed"; "error" := "quota exceeded"]} |}.
Proof.
  apply (final_answer_is_repeated (take 9 trace_two_jobs) (drop 9 trace_two_jobs)
           "job-2" {["status" := "failed"; "error" := "quota exceeded"]}).
  - vm_compute. repeat split.
  - by vm_compute.
  - right. reflexivity.
Defined.

(** ** [_run_agents] awaited where its job has no record *)

Lemma mark_failed_missing j e d :
  d !! j = None →
  mark_failed j e d
  = (d, Finished (Some (if isinstance_Exception e then KeyError j else e))).
Proof. intros H. unfold mark_failed. rewrite H. by destruct (isinstance_Exception e). Qed.

Lemma mark_completed_missing j d :
  d !! j = None → mark_completed j d = (d, Finished (Some (KeyError j))).
Proof. intros H. unfold mark_completed. by rewrite H. Qed.

Lemma drive_finished r script d : drive (Finished r) script d = (d, Finished r).
Proof. by destruct script. Qed.

Lemma drive_app st script1 script2 d :
  drive st (script1 ++ script2) d
  = drive (drive st script1 d).2 script2 (drive st script1 d).1.
Proof.
  revert st d. induction script1 as [|o script1 IH]; intros st d.
  - by destruct st.
  - destruct st as [body|c k|r]; cbn; [by destruct script2| |by destruct script2].
    destruct (advance (k o) d) as [d' st']. apply IH.
Qed.

Lemma run_alone_app p script1 script2 d :
  run_alone p (script1 ++ script2) d
  = drive (run_alone p script1 d).2 script2 (run_alone p script1 d).1.
Proof. unfold run_alone. destruct (advance p d) as [d' st]. apply drive_app. Qed.

(** While results come back, the coroutine goes on to its next call and
    the store is as it was. *)
Lemma run_alone_returned j tr rs d :
  (List.length rs ≤ 2)%nat →
  ∃ c k, run_alone (_run_agents j tr) (Returned <$> rs) d = (d, Suspended c k) ∧
         waiting_on j tr rs c k.
Proof.
  intros Hlen. unfold run_alone.
  destruct (run_agents_start j tr d) as (k1 & -> & Hk1).
  destruct rs as [|r1 rs]; cbn; [by eauto|].
  destruct (Hk1 (Returned r1) d) as (k2 & -> & Hk2).
  destruct rs as [|r2 rs]; cbn; [by eauto|].
  destruct (Hk2 (Returned r2) d) as (k3 & -> & Hk3).
  destruct rs as [|r3 rs]; cbn; [by eauto|]. cbn in Hlen. lia.
Qed.

(** The outcomes given to the coroutine are results up to its third call,
    with or without an exception among the first three. *)
Lemma script_cases (script : list outcome) :
  (∃ rs, script = Returned <$> rs ∧ (List.length rs ≤ 2)%nat) ∨
  (∃ r1 r2 r3 rest, script = Returned r1 :: Returned r2 :: Returned r3 :: rest) ∨
  (∃ rs e rest, script = (Returned <$> rs) ++ Raised e :: rest ∧
                (List.length rs ≤ 2)%nat).
Proof.
  destruct script as [|[r1|e1] script].
  { left. exists []. cbn. split; [done|lia]. }
  2:{ right; right. exists [], e1, script. cbn. split; [done|lia]. }
  destruct script as [|[r2|e2] script].
  { left. exists [r1]. cbn. split; [done|lia]. }
  2:{ right; right. exists [r1], e2, script. cbn. split; [done|lia]. }
  destruct script as [|[r3|e3] script].
  { left. exists [r1; r2]. cbn. split; [done|lia]. }
  2:{ right; right. exists [r1; r2], e3, script. cbn. split; [done|lia]. }
  right; left. by exists r1, r2, r3, script.
Qed.

Lemma run_alone_third_returned j tr r1 r2 r3 rest d :
  run_alone (_run_agents j tr) (Returned r1 :: Returned r2 :: Returned r3 :: rest) d
  = ((mark_completed j d).1, (mark_completed j d).2).
Proof.
  change (Returned r1 :: Returned r2 :: Returned r3 :: rest)
    with ((Returned <$> [r1; r2]) ++ Returned r3 :: rest).
  rewrite run_alone_app.
  destruct (run_alone_returned j tr [r1; r2] d) as (c & k & -> & _ & Hk);
    [cbn; lia|].
  cbn. rewrite (Hk (Returned r3) d).
  unfold mark_completed. destruct (d !! j); cbn; apply drive_finished.
Qed.

Lemma run_alone_raised j tr rs e rest d :
  (List.length rs ≤ 2)%nat →
  run_alone (_run_agents j tr) ((Returned <$> rs) ++ Raised e :: rest) d
  = ((mark_failed j e d).1, (mark_failed j e d).2).
Proof.
  intros Hlen. rewrite run_alone_app.
  destruct (run_alone_returned j tr rs d Hlen) as (c & k & -> & Hw).
  cbn. rewrite (waiting_on_raised _ _ _ _ _ e d Hw).
  unfold mark_failed. destruct (isinstance_Exception e), (d !! j); cbn;
    apply drive_finished.
Qed.

(** X12.  [_run_agents] awaited on its own for an identifier that has no
    record in the store, against any sequence of runner outcomes: the
    store is left as it was; after three results, or after an [Exception]
    from one of the three calls, the coroutine ends with [KeyError] for
    the identifier, which its own handler let through; an exception that
    is not an [Exception] comes out as it is; and while fewer than three
    results have come it is waiting for the next.  It never returns
    normally. *)
Theorem run_agents_without_record j tr script d :
  d !! j = None →
  (run_alone (_run_agents j tr) script d).1 = d ∧
  (run_alone (_run_agents j tr) script d).2 ≠ Finished None ∧
  (∀ r1 r2 r3 rest, script = Returned r1 :: Returned r2 :: Returned r3 :: rest →
     (run_alone (_run_agents j tr) script d).2 = Finished (Some (KeyError j))) ∧
  (∀ rs e rest, script = (Returned <$> rs) ++ Raised e :: rest →
     (List.length rs ≤ 2)%nat →
     (run_alone (_run_agents j tr) script d).2
     = Finished (Some (if isinstance_Exception e then KeyError j else e))) ∧
  (∀ rs, script = Returned <$> rs → (List.length rs ≤ 2)%nat →
     ∃ c k, (run_alone (_run_agents j tr) script d).2 = Suspended c k).
Proof.
  intros Hd.
  assert (H3 : ∀ r1 r2 r3 rest,
    run_alone (_run_agents j tr) (Returned r1 :: Returned r2 :: Returned r3 :: rest) d
    = (d, Finished (Some (KeyError j)))).
  { intros. by rewrite run_alone_third_returned, mark_completed_missing. }
  assert (He : ∀ rs e rest, (List.length rs ≤ 2)%nat →
    run_alone (_run_agents j tr) ((Returned <$> rs) ++ Raised e :: rest) d
    = (d, Finished (Some (if isinstance_Exception e then KeyError j else e)))).
  { intros. by rewrite run_alone_raised, mark_failed_missing. }
  split; [|split; [|split; [|split]]].
  - destruct (script_cases script)
      as [(rs & -> & Hlen)|[(r1 & r2 & r3 & rest & ->)|(rs & e & rest & -> & Hlen)]].
    + by destruct (run_alone_returned j tr rs d Hlen) as (c & k & -> & _).
    + by rewrite H3.
    + by rewrite He.
  - destruct (script_cases script)
      as [(rs & -> & Hlen)|[(r1 & r2 & r3 & rest & ->)|(rs & e & rest & -> & Hlen)]].
    + by destruct (run_alone_returned j tr rs d Hlen) as (c & k & -> & _).
    + by rewrite H3.
    + by rewrite He.
  - intros r1 r2 r3 rest ->. by rewrite H3.
  - intros rs e rest -> Hlen. by rewrite He.
  - intros rs -> Hlen.
    destruct (run_alone_returned j tr rs d Hlen) as (c & k & -> & _). eauto.
Qed.

Lemma run_agents_without_record_witness :
  run_alone (_run_agents "job-9" "Alice: Hi.")
            [Returned (res "Alice: Hi."); Raised (RunnerError true "boom")] ∅
  = (∅, Finished (Some (KeyError "job-9"))).
Proof.
  destruct (run_agents_without_record "job-9" "Alice: Hi."
              [Returned (res "Alice: Hi."); Raised (RunnerError true "boom")] ∅)
    as (H1 & _ & _ & H4 & _); [reflexivity|].
  specialize (H4 [res "Alice: Hi."] (RunnerError true "boom") [] eq_refl).
  rewrite (surjective_pairing (run_alone _ _ _)), H1, H4; [reflexivity|cbn; lia].
Defined.

(** X13.  [_run_agents] awaited on its own for an identifier that has a
    record, whatever the record holds, against any sequence of runner
    outcomes: three results set the status field to "completed"; an
    [Exception] from any of the three calls sets status to "failed" and the
    error field to its text; an exception that is not an [Exception] comes
    out and leaves the store as it was.  In each case the coroutine has
    ended, the other fields of the record and the other records are kept,
    and the outcomes that follow are not used. *)
Theorem run_agents_with_record j tr d rec :
  d !! j = Some rec →
  (∀ r1 r2 r3 rest,
     run_alone (_run_agents j tr)
               (Returned r1 :: Returned r2 :: Returned r3 :: rest) d
     = (<[j := <["status" := "completed"]> rec]> d, Finished None)) ∧
  (∀ rs e rest, (List.length rs ≤ 2)%nat → isinstance_Exception e = true →
     run_alone (_run_agents j tr) ((Returned <$> rs) ++ Raised e :: rest) d
     = (<[j := <["error" := str e]> (<["status" := "failed"]> rec)]> d,
        Finished None)) ∧
  (∀ rs e rest, (List.length rs ≤ 2)%nat → isinstance_Exception e = false →
     run_alone (_run_agents j tr) ((Returned <$> rs) ++ Raised e :: rest) d
     = (d, Finished (Some e))).
Proof.
  intros Hd. split; [|split].
  - intros. rewrite run_alone_third_returned. unfold mark_completed. by rewrite Hd.
  - intros rs e rest Hlen He. rewrite run_alone_raised by done.
    unfold mark_failed. by rewrite He, Hd.
  - intros rs e rest Hlen He. rewrite run_alone_raised by done.
    unfold mark_failed. by rewrite He.
Qed.

Lemma run_agents_with_record_witness :
  run_alone (_run_agents "job-1" "Alice: Hi.")
            [Returned (res "Alice: Hi."); Returned (res ""); Returned (res "Sent.");
             Raised (RunnerError true "late")]
            {["job-1" := {["status" := "started"; "owner" := "alice"]}]}
  = ({["job-1" := {["status" := "completed"; "owner" := "alice"]}]}, Finished None).
Proof.
  destruct (run_agents_with_record "job-1" "Alice: Hi."
              {["job-1" := {["status" := "started"; "owner" := "alice"]}]}
              {["status" := "started"; "owner" := "alice"]})
    as (H & _ & _); [reflexivity|].
  rewrite H. reflexivity.
Defined.
